(** * PtyManager: terminal-session process manager

    A shallow embedding of [electron/pty-manager.ts] (the first, canonical
    variant with the 200000/160000 thresholds, lines 1-574) and the
    verification of its output buffering, restoration filter, session
    registry and shutdown behaviour.

    Conventions.
    - A JavaScript string is the list of its UTF-16 code units; [.length]
      is the number of code units.
    - [Map<string, PtyInstance>] is an association list kept in insertion
      order, which is the order in which a JS [Map] is iterated.
    - The manager is single threaded: every public method and every backend
      callback runs to completion, so each is a function from state to
      state.  What the manager does to the outside (IPC messages handed to
      the window, calls of the session-count observer, calls on process
      handles) is recorded in logs that are part of the state. *)

From Stdlib Require Import ZArith NArith Lia.
From stdpp Require Import base tactics option list strings.

Local Open Scope Z_scope.

(** ** JavaScript strings *)

Abbreviation code_unit := N (only parsing).
Abbreviation jsstring := (list N) (only parsing).

(** [s.length] *)
Definition jslength (s : jsstring) : Z := Z.of_nat (length s).

(** [chunks.join('')] *)
Definition join (chunks : list jsstring) : jsstring := concat chunks.

(** ['x'.repeat(n)] for a one-unit string *)
Definition jsrepeat (c : code_unit) (n : N) : jsstring := repeat c (N.to_nat n).

(** A string literal whose characters are all below U+0100. *)
Fixpoint js (s : string) : jsstring :=
  match s with
  | EmptyString => []
  | String a rest => Ascii.N_of_ascii a :: js rest
  end.

(** Sum of the lengths of the chunks of a buffer. *)
Definition totalLength (chunks : list jsstring) : Z :=
  foldr (fun c acc => jslength c + acc) 0 chunks.

Arguments jsrepeat (c n)%_N.
Arguments jslength : simpl never.
Arguments totalLength : simpl never.

(** ** Output buffer: append with hysteresis trimming

    The three data callbacks of [create] (node-pty [onData], child
    [stdout] and child [stderr]) run the same statements on the instance:
<<
    instance.outputBuffer.push(data)
    instance.outputBufferSize += data.length
    if (instance.outputBufferSize > 200000) {
      while (instance.outputBuffer.length > 1 && instance.outputBufferSize > 160000) {
        const removed = instance.outputBuffer.shift()!
        instance.outputBufferSize -= removed.length
      }
    }
>>
    A buffer is the pair of the chunk array and the tracked size. *)

Definition OutputBuffer : Type := (list jsstring * Z)%type.

Definition emptyBuffer : OutputBuffer := ([], 0).

(** The [while] loop.  [outputBuffer.length > 1] is the two-or-more pattern;
    [shift()] removes the head. *)
Fixpoint trimLoop (outputBuffer : list jsstring) (outputBufferSize : Z) : OutputBuffer :=
  match outputBuffer with
  | removed :: ((_ :: _) as rest) =>
      if outputBufferSize >? 160000
      then trimLoop rest (outputBufferSize - jslength removed)
      else (outputBuffer, outputBufferSize)
  | _ => (outputBuffer, outputBufferSize)
  end.

(** The body of a data callback on the instance's buffer. *)
Definition pushOutput (data : jsstring) (b : OutputBuffer) : OutputBuffer :=
  let outputBuffer := b.1 ++ [data] in
  let outputBufferSize := b.2 + jslength data in
  if outputBufferSize >? 200000
  then trimLoop outputBuffer outputBufferSize
  else (outputBuffer, outputBufferSize).

(** The tracked size agrees with the chunks. *)
Definition consistent (b : OutputBuffer) : Prop := b.2 = totalLength b.1.

(** ** Restoration filter

    [String.prototype.replace] with a global regular expression scans the
    subject from the left; where the expression matches, the match is
    replaced (here by the empty string) and the scan resumes after it,
    otherwise one code unit is copied and the scan moves on by one.  Every
    expression of [filterClearScreenCodes] is a literal sequence, or a
    literal followed by the class [[hl]], so an expression is given by the
    list of the literals it matches. *)

Definition ESC : code_unit := 27%N.

(** [stripPrefix p s] is what follows [p] when [s] starts with [p]. *)
Fixpoint stripPrefix (p s : jsstring) : option jsstring :=
  match p, s with
  | [], _ => Some s
  | a :: p', b :: s' => if N.eqb a b then stripPrefix p' s' else None
  | _ :: _, [] => None
  end.

(** A match of one of the alternatives at the start of [s]. *)
Fixpoint matchAt (alts : list jsstring) (s : jsstring) : option jsstring :=
  match alts with
  | [] => None
  | p :: alts' =>
      match stripPrefix p s with
      | Some rest => Some rest
      | None => matchAt alts' s
      end
  end.

(** The scan of [s.replace(/.../g, '')].  Every match consumes at least one
    code unit, so [length s] steps always suffice (see [removeAll_cons]). *)
Fixpoint removeAllFuel (fuel : nat) (alts : list jsstring) (s : jsstring) : jsstring :=
  match fuel with
  | O => s
  | S fuel' =>
      match s with
      | [] => []
      | c :: rest =>
          match matchAt alts s with
          | Some after => removeAllFuel fuel' alts after
          | None => c :: removeAllFuel fuel' alts rest
          end
      end
  end.

Definition removeAll (alts : list jsstring) (s : jsstring) : jsstring :=
  removeAllFuel (length s) alts s.

(** [/\x1b\[2J/]: clear entire screen *)
Definition clearScreen : jsstring := ESC :: js "[2J".
(** [/\x1b\[3J/]: clear scrollback buffer *)
Definition clearScrollback : jsstring := ESC :: js "[3J".
(** [/\x1b\[H/]: move cursor to home position *)
Definition cursorHome : jsstring := ESC :: js "[H".
(** [/\x1b\[\?1049[hl]/]: alternate screen buffer switch *)
Definition altScreenOn : jsstring := ESC :: js "[?1049h".
Definition altScreenOff : jsstring := ESC :: js "[?1049l".
(** [/\x1bc/]: reset terminal *)
Definition resetTerminal : jsstring := ESC :: js "c".

Definition filterClearScreenCodes (buffer : jsstring) : jsstring :=
  removeAll [resetTerminal]
    (removeAll [altScreenOn; altScreenOff]
      (removeAll [cursorHome]
        (removeAll [clearScrollback]
          (removeAll [clearScreen] buffer)))).

(** The designated sequences, and the filter as the specification words it:
    one scan that removes the occurrences of the designated sequences and
    copies every other code unit. *)
Definition designated : list jsstring :=
  [clearScreen; clearScrollback; cursorHome; altScreenOn; altScreenOff; resetTerminal].

Definition removeDesignated (buffer : jsstring) : jsstring :=
  removeAll designated buffer.

(** [p] occurs somewhere in [s]. *)
Definition occursIn (p s : jsstring) : Prop := exists u v, s = u ++ p ++ v.

Definition freeOfDesignated (s : jsstring) : Prop :=
  forall p, p ∈ designated -> ~ occursIn p s.

(** ** The session registry: [Map<string, PtyInstance>]

    A JS [Map] holds one entry per key and is iterated in insertion order;
    [set] on a present key replaces the value where it stands. *)

Section JsMap.
Context {V : Type}.

Fixpoint map_get (k : string) (m : list (string * V)) : option V :=
  match m with
  | [] => None
  | (k', v) :: m' => if decide (k = k') then Some v else map_get k m'
  end.

Definition map_has (k : string) (m : list (string * V)) : bool :=
  match map_get k m with Some _ => true | None => false end.

Fixpoint map_set (k : string) (v : V) (m : list (string * V)) : list (string * V) :=
  match m with
  | [] => [(k, v)]
  | (k', v') :: m' =>
      if decide (k = k') then (k, v) :: m' else (k', v') :: map_set k v m'
  end.

Fixpoint map_delete (k : string) (m : list (string * V)) : list (string * V) :=
  match m with
  | [] => []
  | (k', v) :: m' =>
      if decide (k = k') then map_delete k m' else (k', v) :: map_delete k m'
  end.

Definition map_size (m : list (string * V)) : Z := Z.of_nat (length m).

Definition map_keys (m : list (string * V)) : list string := m.*1.

End JsMap.

(** ** Data model *)

Inductive TermType : Type := terminal | claude_code.

Inductive CodeAgentType : Type := happy | claude.

(** [CreatePtyOptions] as [create] destructures it. *)
Record CreatePtyOptions : Type := mkOptions {
  o_id : string;
  o_cwd : string;
  o_type : TermType;
  o_shell : option string;
  o_codeAgentType : option CodeAgentType
}.

(** [interface PtyInstance].  A process handle is the number the backend
    gave the process at spawn; [usePty] tells which API it is driven by. *)
Record PtyInstance : Type := mkInstance {
  process : nat;
  type : TermType;
  cwd : string;
  usePty : bool;
  outputBuffer : list jsstring;
  outputBufferSize : Z
}.

Definition bufferOf (i : PtyInstance) : OutputBuffer :=
  (outputBuffer i, outputBufferSize i).

Definition withBuffer (b : OutputBuffer) (i : PtyInstance) : PtyInstance :=
  {| process := process i; type := type i; cwd := cwd i; usePty := usePty i;
     outputBuffer := b.1; outputBufferSize := b.2 |}.

(** What reaches the window through [webContents.send]. *)
Inductive IpcMsg : Type :=
  | PtyOutput (id : string) (data : jsstring)   (* channel 'pty:output' *)
  | PtyExit (id : string) (exitCode : Z).       (* channel 'pty:exit' *)

(** Calls on the two process-control APIs.  A spawn is logged with its
    result: the new handle, or [None] when the call threw. *)
Record SpawnArgs : Type := mkSpawn {
  executable : string;
  args : list string;
  spawnCwd : string
}.

Inductive BackendCall : Type :=
  | PtySpawn (a : SpawnArgs) (result : option nat)     (* pty.spawn *)
  | ChildSpawn (a : SpawnArgs) (result : option nat)   (* child_process.spawn *)
  | PtyWrite (h : nat) (data : jsstring)
  | StdinWrite (h : nat) (data : jsstring)
  | PtyResize (h : nat) (cols rows : Z)
  | PtyKill (h : nat)
  | ChildKill (h : nat).

(** What a call of [create] finds outside the manager: the results of the
    executable lookups (they read the file system) and whether each spawn
    throws.  The environment handed to the spawned process is not
    modelled. *)
Record World : Type := mkWorld {
  happyPath : string;          (* findHappyExecutable() *)
  claudePath : string;         (* findClaudeExecutable() *)
  defaultShell : string;       (* getDefaultShell() *)
  ptySpawnThrows : bool;
  childSpawnThrows : bool
}.

(** The manager together with the module-level [pty] / [ptyAvailable], the
    window, and the logs of what it did to the outside (oldest first). *)
Record State : Type := mkState {
  instances : list (string * PtyInstance);
  disposed : bool;
  ptyModule : bool;            (* pty !== null *)
  ptyAvailable : bool;
  countObserver : bool;        (* onTerminalCountChange was supplied *)
  windowDestroyed : bool;      (* this.window.isDestroyed() *)
  sent : list IpcMsg;          (* webContents.send *)
  counted : list Z;            (* onTerminalCountChange(count) *)
  backend : list BackendCall;
  nextHandle : nat
}.

Definition setInstances (m : list (string * PtyInstance)) (st : State) : State :=
  mkState m (disposed st) (ptyModule st) (ptyAvailable st) (countObserver st)
    (windowDestroyed st) (sent st) (counted st) (backend st) (nextHandle st).

Definition setDisposed (b : bool) (st : State) : State :=
  mkState (instances st) b (ptyModule st) (ptyAvailable st) (countObserver st)
    (windowDestroyed st) (sent st) (counted st) (backend st) (nextHandle st).

Definition setPtyAvailable (b : bool) (st : State) : State :=
  mkState (instances st) (disposed st) (ptyModule st) b (countObserver st)
    (windowDestroyed st) (sent st) (counted st) (backend st) (nextHandle st).

Definition setWindowDestroyed (b : bool) (st : State) : State :=
  mkState (instances st) (disposed st) (ptyModule st) (ptyAvailable st) (countObserver st)
    b (sent st) (counted st) (backend st) (nextHandle st).

Definition logSent (m : IpcMsg) (st : State) : State :=
  mkState (instances st) (disposed st) (ptyModule st) (ptyAvailable st) (countObserver st)
    (windowDestroyed st) (sent st ++ [m]) (counted st) (backend st) (nextHandle st).

Definition logCounted (n : Z) (st : State) : State :=
  mkState (instances st) (disposed st) (ptyModule st) (ptyAvailable st) (countObserver st)
    (windowDestroyed st) (sent st) (counted st ++ [n]) (backend st) (nextHandle st).

Definition logBackend (c : BackendCall) (st : State) : State :=
  mkState (instances st) (disposed st) (ptyModule st) (ptyAvailable st) (countObserver st)
    (windowDestroyed st) (sent st) (counted st) (backend st ++ [c]) (nextHandle st).

Definition bumpHandle (st : State) : State :=
  mkState (instances st) (disposed st) (ptyModule st) (ptyAvailable st) (countObserver st)
    (windowDestroyed st) (sent st) (counted st) (backend st) (S (nextHandle st)).

(** The state after module load and [new PtyManager(window, observer)].
    [ptyAvailable] is set only when [require('node-pty')] gave a module. *)
Definition initialState (ptyLoads spawnIsFunction observer : bool) : State :=
  mkState [] false ptyLoads (ptyLoads && spawnIsFunction) observer false [] [] [] 0.

(** ** The manager's methods *)

(** [this.onTerminalCountChange?.(this.instances.size)] *)
Definition notifyTerminalCountChange (st : State) : State :=
  if countObserver st then logCounted (map_size (instances st)) st else st.

(** [if (!this.disposed && !this.window.isDestroyed()) webContents.send(...)] *)
Definition safeSend (m : IpcMsg) (st : State) : State :=
  if negb (disposed st) && negb (windowDestroyed st) then logSent m st else st.

(** [hay.includes(needle)] *)
Fixpoint includes (needle hay : string) : bool :=
  if String.prefix needle hay then true
  else match hay with
       | EmptyString => false
       | String _ hay' => includes needle hay'
       end.

Definition isPowerShell (executable : string) : bool :=
  includes "powershell" executable || includes "pwsh" executable.

Arguments isPowerShell : simpl never.

(** The first part of [create]: executable and arguments.  An absent or
    empty [shell] override is falsy, so the default shell is taken. *)
Definition resolveExecutable (w : World) (o : CreatePtyOptions) : string * list string :=
  match o_type o with
  | claude_code =>
      (match o_codeAgentType o with
       | Some claude => claudePath w
       | _ => happyPath w
       end, [])
  | terminal =>
      let executable :=
        match o_shell o with
        | Some s => if decide (s = "") then defaultShell w else s
        | None => defaultShell w
        end in
      (executable,
       if isPowerShell executable then ["-ExecutionPolicy"; "Bypass"; "-NoLogo"] else [])
  end.

Definition newInstance (h : nat) (o : CreatePtyOptions) (viaPty : bool) : PtyInstance :=
  {| process := h; type := o_type o; cwd := o_cwd o; usePty := viaPty;
     outputBuffer := []; outputBufferSize := 0 |}.

(** The notice of the piped path: ['[Terminal - child_process mode]\r\n'] *)
Definition degradedNotice : jsstring :=
  js "[Terminal - child_process mode]" ++ [13%N; 10%N].

Arguments degradedNotice : simpl never.

(** [`\r\n[Error: ${error.message}]\r\n`] *)
Definition errorText (message : jsstring) : jsstring :=
  [13%N; 10%N] ++ js "[Error: " ++ message ++ js "]" ++ [13%N; 10%N].

(** [if (ptyAvailable && pty) { try { ... } catch { ptyAvailable = false } }]:
    returns [usedPty].  Of the statements in the [try] only [pty.spawn] is
    taken to throw; logging to the console is not modelled. *)
Definition createNative (w : World) (o : CreatePtyOptions)
    (executable : string) (args : list string) (st : State) : bool * State :=
  if ptyAvailable st && ptyModule st then
    let call := mkSpawn executable args (o_cwd o) in
    if ptySpawnThrows w then
      (false, setPtyAvailable false (logBackend (PtySpawn call None) st))
    else
      let h := nextHandle st in
      let st := bumpHandle (logBackend (PtySpawn call (Some h)) st) in
      let st := setInstances (map_set (o_id o) (newInstance h o true) (instances st)) st in
      (true, notifyTerminalCountChange st)
  else (false, st).

(** [if (!usedPty) { try { ... } catch { return false } }]: returns whether
    the session was created. *)
Definition createPiped (w : World) (o : CreatePtyOptions)
    (executable : string) (args : list string) (st : State) : bool * State :=
  let shellArgs :=
    if isPowerShell executable
    then args ++ ["-NoExit"; "-Command";
                  "[Console]::OutputEncoding = [System.Text.Encoding]::UTF8; [Console]::InputEncoding = [System.Text.Encoding]::UTF8; $OutputEncoding = [System.Text.Encoding]::UTF8"]
    else args in
  let call := mkSpawn executable shellArgs (o_cwd o) in
  if childSpawnThrows w then
    (false, logBackend (ChildSpawn call None) st)
  else
    let h := nextHandle st in
    let st := bumpHandle (logBackend (ChildSpawn call (Some h)) st) in
    let st := safeSend (PtyOutput (o_id o) degradedNotice) st in
    let st := setInstances (map_set (o_id o) (newInstance h o false) (instances st)) st in
    (true, notifyTerminalCountChange st).

Definition create (w : World) (o : CreatePtyOptions) (st : State) : bool * State :=
  let '(executable, args) := resolveExecutable w o in
  let '(usedPty, st) := createNative w o executable args st in
  if usedPty then (true, st) else createPiped w o executable args st.

(** The data callbacks ([ptyProcess.onData], [stdout.on('data')],
    [stderr.on('data')]) registered by [create] for [id]: buffer, then
    forward. *)
Definition onData (id : string) (data : jsstring) (st : State) : State :=
  let st :=
    match map_get id (instances st) with
    | Some instance =>
        setInstances
          (map_set id (withBuffer (pushOutput data (bufferOf instance)) instance)
             (instances st)) st
    | None => st
    end in
  safeSend (PtyOutput id data) st.

(** [ptyProcess.onExit] and [childProcess.on('exit')]; the latter passes
    [exitCode ?? 0]. *)
Definition onExit (id : string) (exitCode : Z) (st : State) : State :=
  let st := safeSend (PtyExit id exitCode) st in
  let st := setInstances (map_delete id (instances st)) st in
  notifyTerminalCountChange st.

Definition onChildExit (id : string) (exitCode : option Z) (st : State) : State :=
  onExit id (default 0 exitCode) st.

(** [childProcess.on('error')] *)
Definition onChildError (id : string) (message : jsstring) (st : State) : State :=
  safeSend (PtyOutput id (errorText message)) st.

Definition write (id : string) (data : jsstring) (st : State) : State :=
  match map_get id (instances st) with
  | Some instance =>
      if usePty instance
      then logBackend (PtyWrite (process instance) data) st
      else logBackend (StdinWrite (process instance) data) st
  | None => st
  end.

Definition resize (id : string) (cols rows : Z) (st : State) : State :=
  match map_get id (instances st) with
  | Some instance =>
      if usePty instance
      then logBackend (PtyResize (process instance) cols rows) st
      else st
  | None => st
  end.

Definition kill (id : string) (st : State) : bool * State :=
  match map_get id (instances st) with
  | Some instance =>
      let st :=
        if usePty instance
        then logBackend (PtyKill (process instance)) st
        else logBackend (ChildKill (process instance)) st in
      let st := setInstances (map_delete id (instances st)) st in
      (true, notifyTerminalCountChange st)
  | None => (false, st)
  end.

Definition restart (w : World) (id : string) (newCwd : string)
    (shell : option string) (codeAgentType : option CodeAgentType)
    (st : State) : bool * State :=
  match map_get id (instances st) with
  | Some instance =>
      let ty := type instance in
      let savedBuffer := outputBuffer instance in
      let savedBufferSize := outputBufferSize instance in
      let st := (kill id st).2 in
      let '(created, st) := create w (mkOptions id newCwd ty shell codeAgentType) st in
      if created then
        match map_get id (instances st) with
        | Some newInstance =>
            (created,
             setInstances
               (map_set id (withBuffer (savedBuffer, savedBufferSize) newInstance)
                  (instances st)) st)
        | None => (created, st)
        end
      else (created, st)
  | None => (false, st)
  end.

Definition getCwd (id : string) (st : State) : option string :=
  match map_get id (instances st) with
  | Some instance => Some (cwd instance)
  | None => None
  end.

Definition exists_ (id : string) (st : State) : bool :=
  map_has id (instances st).

Definition getOutputBuffer (id : string) (st : State) : option jsstring :=
  match map_get id (instances st) with
  | Some instance => Some (filterClearScreenCodes (join (outputBuffer instance)))
  | None => None
  end.

Definition clearOutputBuffer (id : string) (st : State) : State :=
  match map_get id (instances st) with
  | Some instance =>
      setInstances (map_set id (withBuffer ([], 0) instance) (instances st)) st
  | None => st
  end.

(** [for (const [id] of this.instances) this.kill(id)]: the iteration is
    over the live map, and each round deletes the entry it stands on, so
    the ids visited are the keys present at the start, in order. *)
Definition killAll (ids : list string) (st : State) : State :=
  foldl (fun st id => (kill id st).2) st ids.

Definition dispose (st : State) : State :=
  let st := setDisposed true st in
  killAll (map_keys (instances st)) st.

(** ** Runs of the manager

    Everything that changes the state: the mutating methods, the callbacks
    the backends invoke, and the window being destroyed.  The queries
    ([getCwd], [exists], [getOutputBuffer]) are functions of the state. *)
Inductive Op : Type :=
  | OpCreate (w : World) (o : CreatePtyOptions)
  | OpWrite (id : string) (data : jsstring)
  | OpResize (id : string) (cols rows : Z)
  | OpKill (id : string)
  | OpRestart (w : World) (id : string) (newCwd : string)
      (shell : option string) (codeAgentType : option CodeAgentType)
  | OpClearOutputBuffer (id : string)
  | OpDispose
  | EvData (id : string) (data : jsstring)
  | EvPtyExit (id : string) (exitCode : Z)
  | EvChildExit (id : string) (exitCode : option Z)
  | EvChildError (id : string) (message : jsstring)
  | EvWindowDestroyed.

Definition step (op : Op) (st : State) : State :=
  match op with
  | OpCreate w o => (create w o st).2
  | OpWrite id data => write id data st
  | OpResize id cols rows => resize id cols rows st
  | OpKill id => (kill id st).2
  | OpRestart w id newCwd shell agent => (restart w id newCwd shell agent st).2
  | OpClearOutputBuffer id => clearOutputBuffer id st
  | OpDispose => dispose st
  | EvData id data => onData id data st
  | EvPtyExit id exitCode => onExit id exitCode st
  | EvChildExit id exitCode => onChildExit id exitCode st
  | EvChildError id message => onChildError id message st
  | EvWindowDestroyed => setWindowDestroyed true st
  end.

Definition run (ops : list Op) (st : State) : State :=
  foldl (fun st op => step op st) st ops.

(** Every registered session's tracked size agrees with its chunks. *)
Definition consistentMap (m : list (string * PtyInstance)) : Prop :=
  forall id instance, map_get id m = Some instance -> consistent (bufferOf instance).

Definition allConsistent (st : State) : Prop := consistentMap (instances st).

(** ** Vocabulary of the statements *)

(** [safeSend] lets a message through. *)
Definition live (st : State) : bool :=
  negb (disposed st) && negb (windowDestroyed st).

(** [create] enters the native branch, and the native spawn returns. *)
Definition nativeTried (st : State) : bool := ptyAvailable st && ptyModule st.

Definition nativeOk (w : World) (st : State) : bool :=
  nativeTried st && negb (ptySpawnThrows w).

(** The call by which [kill] ends the process of an instance. *)
Definition killCall (i : PtyInstance) : BackendCall :=
  if usePty i then PtyKill (process i) else ChildKill (process i).

Definition isPtySpawn (c : BackendCall) : bool :=
  match c with PtySpawn _ _ => true | _ => false end.

(** [n-1; n-2; ...; 0] *)
Fixpoint countdown (n : nat) : list Z :=
  match n with
  | O => []
  | S n' => Z.of_nat n' :: countdown n'
  end.

(** Every designated sequence is ESC followed by units that are not ESC. *)
Definition escFree (t : jsstring) : Prop := Forall (fun c => c <> ESC) t.

Definition escLed (p : jsstring) : Prop :=
  exists tail, p = ESC :: tail /\ escFree tail.

(** A string that is empty or starts with ESC. *)
Definition escStart (s : jsstring) : Prop := s = [] \/ exists s', s = ESC :: s'.

(** A string read as designated sequences and single code units. *)
Inductive token : Type :=
  | Seq (p : jsstring)
  | Unit (c : code_unit).

Definition tokenText (t : token) : jsstring :=
  match t with Seq p => p | Unit c => [c] end.

Definition flatten (toks : list token) : jsstring :=
  concat (map tokenText toks).

(** The code units outside the sequences. *)
Fixpoint units (toks : list token) : jsstring :=
  match toks with
  | [] => []
  | Seq _ :: toks' => units toks'
  | Unit c :: toks' => c :: units toks'
  end.

(** [toks] without the sequences that are among [alts]. *)
Fixpoint dropSeqs (alts : list jsstring) (toks : list token) : list token :=
  match toks with
  | [] => []
  | Seq p :: toks' =>
      if decide (p ∈ alts) then dropSeqs alts toks' else Seq p :: dropSeqs alts toks'
  | Unit c :: toks' => Unit c :: dropSeqs alts toks'
  end.

(** The reading a left-to-right scan for the designated sequences makes:
    a unit stands only where no designated sequence starts. *)
Inductive Scanned : list token -> Prop :=
  | Scanned_nil : Scanned []
  | Scanned_seq p toks :
      p ∈ designated -> Scanned toks -> Scanned (Seq p :: toks)
  | Scanned_unit c toks :
      matchAt designated (c :: flatten toks) = None ->
      Scanned toks -> Scanned (Unit c :: toks).

(** Every sequence token is a designated sequence. *)
Definition seqsDesignated (toks : list token) : Prop :=
  Forall (fun t => match t with Seq p => p ∈ designated | Unit _ => True end) toks.

(** The tokens left after the five passes of the filter. *)
Definition dropAllSeqs (toks : list token) : list token :=
  dropSeqs [resetTerminal]
    (dropSeqs [altScreenOn; altScreenOff]
      (dropSeqs [cursorHome]
        (dropSeqs [clearScrollback]
          (dropSeqs [clearScreen] toks)))).

(** ** More vocabulary: runs of data callbacks, the observer's view *)

(** The data callbacks for [id] firing with [datas], in order. *)
Definition feed (id : string) (datas : list jsstring) (st : State) : State :=
  foldl (fun st data => onData id data st) st datas.

(** The count the observer saw last is the size of the registry. *)
Definition countInSync (st : State) : Prop :=
  match last (counted st) with
  | Some n => n = map_size (instances st)
  | None => instances st = []
  end.

(** ** The renderer's use of the buffer  (src/components/TerminalPanel.tsx)

    The restore step of a terminal panel when it mounts:
<<
    const exists = await window.electronAPI.pty.exists(terminalId)
    if (exists) {
      const buffer = await window.electronAPI.pty.getOutputBuffer(terminalId)
      if (buffer) {
        terminal.write(buffer)
        window.electronAPI.pty.clearOutputBuffer(terminalId)
      }
    }
>>
    taken with no other call of the manager in between.  The result is
    what was written to the terminal widget, if anything, and the
    manager's state.  [if (buffer)] is false for null and for the empty
    string. *)
Definition restoreBuffer (id : string) (st : State) : option jsstring * State :=
  if exists_ id st then
    match getOutputBuffer id st with
    | Some [] => (None, st)
    | Some buffer => (Some buffer, clearOutputBuffer id st)
    | None => (None, st)
    end
  else (None, st).

(** ** The earlier variant of the data callback

    The second [PtyManager] in the file (lines 576-877) keeps no tracked
    size; its three data callbacks measure the buffer by joining it:
<<
    instance.outputBuffer.push(data)
    const totalLength = instance.outputBuffer.join('').length
    if (totalLength > 50000) {
      while (instance.outputBuffer.length > 1 && instance.outputBuffer.join('').length > 40000) {
        instance.outputBuffer.shift()
      }
    }
>> *)
Fixpoint trimLoopJoin (outputBuffer : list jsstring) : list jsstring :=
  match outputBuffer with
  | _ :: ((_ :: _) as rest) =>
      if jslength (join outputBuffer) >? 40000
      then trimLoopJoin rest
      else outputBuffer
  | _ => outputBuffer
  end.

Definition pushOutputJoin (data : jsstring) (outputBuffer : list jsstring) : list jsstring :=
  let outputBuffer := outputBuffer ++ [data] in
  let totalLength := jslength (join outputBuffer) in
  if totalLength >? 50000 then trimLoopJoin outputBuffer else outputBuffer.

(** ** Executable and shell lookup  (pty-manager.ts, lines 81-284)

    What the lookups read from outside: the platform, the home directory,
    [process.env] (looked up by exact name, as on POSIX), the file system
    through [fs.existsSync] and [fs.readdirSync] ([None] when it throws),
    and [path.join], which is taken as given.  A string here is the
    sequence of its UTF-8 bytes; [sort()] compares UTF-16 code units, which
    is the same order as long as no character outside the basic plane is
    involved. *)

Inductive Platform : Type := win32 | darwin | linux.

Record Host : Type := mkHost {
  platform : Platform;                         (* process.platform; any other value goes the linux way *)
  homedir : string;                            (* os.homedir() *)
  processEnv : list (string * string);         (* process.env *)
  existsSync : string -> bool;
  readdirSync : string -> option (list string);
  pathJoin : list string -> string;            (* path.join(a, b, ...) *)
  loginShellEnv : option string                (* execSync(`${shell} -ilc 'env'`), None when it throws or times out *)
}.

(** [a || b] on a string that may be undefined: the empty string is falsy. *)
Definition orDefault (a : option string) (b : string) : string :=
  match a with
  | Some s => if decide (s = "") then b else s
  | None => b
  end.

(** [a + '...'] on a string that may be undefined. *)
Definition toStr (a : option string) : string :=
  match a with Some s => s | None => "undefined" end.

(** [versions.sort()]: the default order, the strings compared unit by
    unit. *)
Fixpoint insertSorted (x : string) (l : list string) : list string :=
  match l with
  | [] => [x]
  | y :: l' => if String.leb x y then x :: l else y :: insertSorted x l'
  end.

Definition jsSort (l : list string) : list string := foldr insertSorted [] l.

(** [for (const p of paths) if (fs.existsSync(p)) return p] *)
Definition firstExisting (h : Host) (paths : list string) : option string :=
  List.find (existsSync h) paths.

Arguments firstExisting : simpl never.

(** The nvm part of [findHappyExecutable] / [findClaudeExecutable]. *)
Definition nvmCandidates (name : string) (h : Host) : list string :=
  let nvmDir := orDefault (map_get "NVM_DIR" (processEnv h)) (pathJoin h [homedir h; ".nvm"]) in
  if existsSync h nvmDir then
    let versionsDir := pathJoin h [nvmDir; "versions"; "node"] in
    if existsSync h versionsDir then
      match readdirSync h versionsDir with
      | Some versions =>
          map (fun version => pathJoin h [versionsDir; version; "bin"; name])
            (rev (jsSort versions))
      | None => []
      end
    else []
  else [].

(** [possiblePaths] of the two functions; they differ in the name only. *)
Definition possiblePaths (name : string) (h : Host) : list string :=
  match platform h with
  | win32 =>
      [pathJoin h [homedir h; "AppData"; "Roaming"; "npm"; name +:+ ".cmd"];
       pathJoin h [homedir h; "AppData"; "Roaming"; "npm"; name];
       "C:\Program Files\nodejs\" +:+ name +:+ ".cmd"]
  | _ =>
      nvmCandidates name h ++
      ["/usr/local/bin/" +:+ name;
       "/opt/homebrew/bin/" +:+ name;
       pathJoin h [homedir h; ".local"; "bin"; name];
       pathJoin h [homedir h; "bin"; name];
       "/usr/bin/" +:+ name]
  end.

Definition findExecutable (name : string) (h : Host) : string :=
  match firstExisting h (possiblePaths name h) with
  | Some p => p
  | None => name
  end.

Definition findHappyExecutable (h : Host) : string := findExecutable "happy" h.

Definition findClaudeExecutable (h : Host) : string := findExecutable "claude" h.

Definition getDefaultShell (h : Host) : string :=
  match platform h with
  | win32 =>
      let pwshPaths :=
        ["C:\Program Files\PowerShell\7\pwsh.exe";
         "C:\Program Files (x86)\PowerShell\7\pwsh.exe";
         toStr (map_get "LOCALAPPDATA" (processEnv h)) +:+ "\Microsoft\WindowsApps\pwsh.exe"] in
      match firstExisting h pwshPaths with
      | Some p => p
      | None => "powershell.exe"
      end
  | darwin => orDefault (map_get "SHELL" (processEnv h)) "/bin/zsh"
  | linux =>
      match map_get "SHELL" (processEnv h) with
      | Some s =>
          if decide (s = "")
          then (if existsSync h "/bin/bash" then "/bin/bash" else "/bin/sh")
          else s
      | None => if existsSync h "/bin/bash" then "/bin/bash" else "/bin/sh"
      end
  end.

(** The directories [getEnhancedPath] puts in front of the original PATH. *)
Definition enhancedDirs (h : Host) : list string :=
  match platform h with
  | win32 =>
      List.filter (existsSync h)
        [pathJoin h [homedir h; "AppData"; "Roaming"; "npm"];
         "C:\Program Files\nodejs";
         "C:\Program Files (x86)\nodejs"]
  | _ =>
      let nvmDir := orDefault (map_get "NVM_DIR" (processEnv h)) (pathJoin h [homedir h; ".nvm"]) in
      let versionsDir := pathJoin h [nvmDir; "versions"; "node"] in
      (if existsSync h versionsDir then
         match readdirSync h versionsDir with
         | Some versions =>
             map (fun version => pathJoin h [versionsDir; version; "bin"])
               (rev (jsSort versions))
         | None => []
         end
       else []) ++
      List.filter (existsSync h)
        ["/usr/local/bin";
         "/opt/homebrew/bin";
         pathJoin h [homedir h; ".local"; "bin"];
         pathJoin h [homedir h; "bin"];
         "/usr/bin";
         "/bin"]
  end.

Definition getEnhancedPath (h : Host) : string :=
  let pathParts :=
    enhancedDirs h ++
    match map_get "PATH" (processEnv h) with
    | Some p => if decide (p = "") then [] else [p]
    | None => []
    end in
  String.concat (match platform h with win32 => ";" | _ => ":" end) pathParts.

(** What [create] finds on a host. *)
Definition hostWorld (h : Host) (ptyThrows childThrows : bool) : World :=
  mkWorld (findHappyExecutable h) (findClaudeExecutable h) (getDefaultShell h)
    ptyThrows childThrows.

(** The arguments [create] gives the piped spawn. *)
Definition pipedArgs (executable : string) (args : list string) : list string :=
  if isPowerShell executable
  then args ++ ["-NoExit"; "-Command";
                "[Console]::OutputEncoding = [System.Text.Encoding]::UTF8; [Console]::InputEncoding = [System.Text.Encoding]::UTF8; $OutputEncoding = [System.Text.Encoding]::UTF8"]
  else args.

(** ** The environment of the spawned process  (lines 52-79, 321-331, 389-399) *)

Definition LF : Ascii.ascii := Ascii.ascii_of_nat 10.   (* '\n' *)
Definition EQ : Ascii.ascii := Ascii.ascii_of_nat 61.   (* '=' *)

(** [s.split(sep)] for a one-character separator. *)
Fixpoint splitOn (sep : Ascii.ascii) (s : string) : list string :=
  match s with
  | EmptyString => [EmptyString]
  | String c rest =>
      if Ascii.eqb c sep then EmptyString :: splitOn sep rest
      else match splitOn sep rest with
           | line :: lines => String c line :: lines
           | [] => [String c EmptyString]
           end
  end.

(** [line.indexOf(sep)] with [line.substring(0, i)] and
    [line.substring(i + 1)]; [None] stands for -1. *)
Fixpoint cutAt (sep : Ascii.ascii) (line : string) : option (string * string) :=
  match line with
  | EmptyString => None
  | String c rest =>
      if Ascii.eqb c sep then Some (EmptyString, rest)
      else match cutAt sep rest with
           | Some (key, value) => Some (String c key, value)
           | None => None
           end
  end.

(** The body of the loop over the lines: [eqIndex > 0] is a separator that
    was found after a non-empty key. *)
Definition parseEnvLine (envVars : list (string * string)) (line : string)
    : list (string * string) :=
  match cutAt EQ line with
  | Some (key, value) => if decide (key = "") then envVars else map_set key value envVars
  | None => envVars
  end.

Definition parseEnv (envOutput : string) : list (string * string) :=
  foldl parseEnvLine [] (splitOn LF envOutput).

(** [getShellEnv]: the parsed output, or the empty object when [execSync]
    throws. *)
Definition getShellEnv (h : Host) : list (string * string) :=
  match loginShellEnv h with
  | Some envOutput => parseEnv envOutput
  | None => []
  end.

(** Object spread and literal properties: later ones override. *)
Definition objAssign (src dst : list (string * string)) : list (string * string) :=
  foldl (fun m kv => map_set kv.1 kv.2 m) dst src.

(** [envWithUtf8], the same in both branches of [create]. *)
Definition spawnEnv (h : Host) : list (string * string) :=
  let shellEnv := getShellEnv h in
  let homeDir := orDefault (map_get "HOME" (processEnv h)) (homedir h) in
  objAssign
    [("HOME", homeDir);
     ("PATH", getEnhancedPath h);
     ("LANG", "en_US.UTF-8");
     ("LC_ALL", "en_US.UTF-8");
     ("PYTHONIOENCODING", "utf-8");
     ("PYTHONUTF8", "1")]
    (objAssign (processEnv h) (objAssign shellEnv [])).

(** [c] occurs in [s]. *)
Fixpoint hasChar (c : Ascii.ascii) (s : string) : bool :=
  match s with
  | EmptyString => false
  | String c' rest => Ascii.eqb c' c || hasChar c rest
  end.

(** A binding as [env] prints it and [parseEnvLine] can read it back. *)
Definition printable (kv : string * string) : Prop :=
  kv.1 <> "" /\ hasChar EQ kv.1 = false /\ hasChar LF kv.1 = false /\ hasChar LF kv.2 = false.

(** The output of [env] for a list of bindings: one line per binding. *)
Fixpoint renderEnv (bindings : list (string * string)) : string :=
  match bindings with
  | [] => EmptyString
  | (key, value) :: rest => key +:+ String EQ (value +:+ String LF (renderEnv rest))
  end.

(** ** Pasting into a terminal  (src/components/TerminalPanel.tsx, lines 33-53)

<<
    const handlePasteText = (text: string) => {
      if (!text) return
      if (text.length > 2000) {
        const chunks = []
        for (let i = 0; i < text.length; i += 1000) {
          chunks.push(text.slice(i, i + 1000))
        }
        chunks.forEach((chunk, index) => {
          setTimeout(() => { window.electronAPI.pty.write(terminalId, chunk) }, index * 50)
        })
      } else {
        window.electronAPI.pty.write(terminalId, text)
      }
    }
>>
    [handlePasteText] is the list of the strings written, in the order of
    their timers. *)

(** The [for] loop from index [i] on; it makes fewer rounds than the text
    has code units. *)
Fixpoint sliceLoop (fuel : nat) (i : nat) (text : jsstring) : list jsstring :=
  match fuel with
  | O => []
  | S fuel' =>
      if (i <? length text)%nat
      then take 1000 (drop i text) :: sliceLoop fuel' (i + 1000) text
      else []
  end.

Definition handlePasteText (text : jsstring) : list jsstring :=
  match text with
  | [] => []
  | _ => if jslength text >? 2000 then sliceLoop (length text) 0 text else [text]
  end.

(** The writes of a paste reaching the manager one after the other. *)
Definition pasteInto (id : string) (text : jsstring) (st : State) : State :=
  foldl (fun st chunk => write id chunk st) st (handlePasteText text).

(** ** The shell chosen in the settings

    The handler of 'settings:get-shell-path' in the main process and
    [getShellFromSettings] of the workspace view, whose result is the
    [shell] option of [create].  [None] is [undefined]. *)
Definition getShellPath (h : Host) (shellType : string) : option string :=
  if decide (shellType = "auto") then None
  else
    match
      match platform h with
      | win32 =>
          if decide (shellType = "pwsh") then
            Some (match firstExisting h
                          ["C:\Program Files\PowerShell\7\pwsh.exe";
                           "C:\Program Files (x86)\PowerShell\7\pwsh.exe";
                           toStr (map_get "LOCALAPPDATA" (processEnv h))
                             +:+ "\Microsoft\WindowsApps\pwsh.exe"] with
                  | Some p => p
                  | None => "pwsh.exe"
                  end)
          else if decide (shellType = "powershell") then Some "powershell.exe"
          else if decide (shellType = "cmd") then Some "cmd.exe"
          else None
      | _ => None
      end
    with
    | Some path => Some path
    | None =>
        if decide (shellType = "zsh") then None
        else if decide (shellType = "bash") then None
        else Some shellType
    end.

(** [settings.shell === 'custom' && settings.customShellPath] *)
Definition getShellFromSettings (h : Host) (shell customShellPath : string) : option string :=
  if decide (shell = "custom") then
    if decide (customShellPath = "") then getShellPath h shell else Some customShellPath
  else getShellPath h shell.

(** ** The thumbnail preview of a terminal's output

    The listener on the manager's 'pty:output' messages kept by the
    thumbnail bar:
<<
    window.electronAPI.pty.onOutput((id, data) => {
      const prev = previewCache.get(id) || ''
      const combined = prev + data
      const cleaned = combined.replace(/\x1b\[[0-9;]*m/g, '')
      const lines = cleaned.split('\n').slice(-8)
      previewCache.set(id, lines.join('\n'))
      ...
    })
>> *)

(** The class [[0-9;]]. *)
Definition isParam (c : code_unit) : bool :=
  ((48 <=? c) && (c <=? 57) || (c =? 59))%N.

(** [[0-9;]*]: the run is as long as it can be, and giving part of it back
    would not help, since what must follow is not in the class. *)
Fixpoint skipParams (s : jsstring) : jsstring :=
  match s with
  | c :: rest => if isParam c then skipParams rest else s
  | [] => []
  end.

(** A match of [/\x1b\[[0-9;]*m/] at the start of [s]: what follows it. *)
Definition matchSgr (s : jsstring) : option jsstring :=
  match s with
  | a :: b :: rest =>
      if ((a =? 27) && (b =? 91))%N then
        match skipParams rest with
        | m :: after => if (m =? 109)%N then Some after else None
        | [] => None
        end
      else None
  | _ => None
  end.

Fixpoint removeSgrFuel (fuel : nat) (s : jsstring) : jsstring :=
  match fuel with
  | O => s
  | S fuel' =>
      match s with
      | [] => []
      | c :: rest =>
          match matchSgr s with
          | Some after => removeSgrFuel fuel' after
          | None => c :: removeSgrFuel fuel' rest
          end
      end
  end.

(** [combined.replace(/\x1b\[[0-9;]*m/g, '')] *)
Definition removeSgr (s : jsstring) : jsstring := removeSgrFuel (length s) s.

(** [s.split('\n')] *)
Fixpoint splitLines (s : jsstring) : list jsstring :=
  match s with
  | [] => [[]]
  | c :: rest =>
      if (c =? 10)%N then [] :: splitLines rest
      else match splitLines rest with
           | line :: lines => (c :: line) :: lines
           | [] => [[c]]
           end
  end.

(** [lines.join('\n')] *)
Definition joinLines (lines : list jsstring) : jsstring :=
  match lines with
  | [] => []
  | line :: lines' => line ++ concat (map (fun l => 10%N :: l) lines')
  end.

(** [lines.slice(-n)] *)
Definition lastLines (n : nat) (lines : list jsstring) : list jsstring :=
  drop (length lines - n) lines.

(** The new cache entry; [prev] is [previewCache.get(id)]. *)
Definition previewUpdate (prev : option jsstring) (data : jsstring) : jsstring :=
  let combined := default [] prev ++ data in
  let cleaned := removeSgr combined in
  joinLines (lastLines 8 (splitLines cleaned)).

(** The number of line breaks in a string. *)
Fixpoint countLF (s : jsstring) : nat :=
  match s with
  | [] => O
  | c :: rest => if (c =? 10)%N then S (countLF rest) else countLF rest
  end.

(** A buffer within the cap: at most 200000 tracked, or one chunk alone. *)
Definition capped (b : OutputBuffer) : Prop :=
  b.2 <= 200000 \/ exists chunk, b.1 = [chunk].

(** * Verification *)

(** ** Lengths *)

Lemma jslength_nonneg (s : jsstring) : 0 <= jslength s.
Proof. unfold jslength. lia. Qed.

Lemma jslength_repeat (c : code_unit) (n : N) : jslength (jsrepeat c n) = Z.of_N n.
Proof. unfold jslength, jsrepeat. rewrite repeat_length. lia. Qed.

Lemma totalLength_nil : totalLength [] = 0.
Proof. reflexivity. Qed.

Lemma totalLength_cons (c : jsstring) (chunks : list jsstring) :
  totalLength (c :: chunks) = jslength c + totalLength chunks.
Proof. reflexivity. Qed.

Lemma totalLength_app (xs ys : list jsstring) :
  totalLength (xs ++ ys) = totalLength xs + totalLength ys.
Proof.
  induction xs as [|x xs IH].
  - reflexivity.
  - change ((x :: xs) ++ ys) with (x :: (xs ++ ys)).
    rewrite !totalLength_cons, IH. lia.
Qed.

Lemma totalLength_nonneg (chunks : list jsstring) : 0 <= totalLength chunks.
Proof.
  induction chunks as [|c chunks IH].
  - rewrite totalLength_nil. lia.
  - rewrite totalLength_cons. pose proof (jslength_nonneg c). lia.
Qed.

(** The tracked sum is the length of the concatenation, which the code
    never has to build. *)
Lemma totalLength_join (chunks : list jsstring) :
  totalLength chunks = jslength (join chunks).
Proof.
  induction chunks as [|c chunks IH].
  - reflexivity.
  - rewrite totalLength_cons, IH. unfold join, jslength. simpl.
    rewrite length_app. lia.
Qed.

(** ** The trimming loop *)

Lemma trimLoop_nil (size : Z) : trimLoop [] size = ([], size).
Proof. reflexivity. Qed.

Lemma trimLoop_one (c : jsstring) (size : Z) : trimLoop [c] size = ([c], size).
Proof. reflexivity. Qed.

Lemma trimLoop_more (a b : jsstring) (rest : list jsstring) (size : Z) :
  trimLoop (a :: b :: rest) size =
  if size >? 160000 then trimLoop (b :: rest) (size - jslength a)
  else (a :: b :: rest, size).
Proof. reflexivity. Qed.

(** What the loop leaves: a whole-chunk suffix, the size reduced by what
    was dropped, the loop guard false, and nothing dropped needlessly. *)
Lemma trimLoop_spec (buf : list jsstring) (size : Z) :
  exists dropped,
    buf = dropped ++ (trimLoop buf size).1 /\
    (trimLoop buf size).2 = size - totalLength dropped /\
    ((trimLoop buf size).2 <= 160000 \/ (length (trimLoop buf size).1 <= 1)%nat) /\
    (forall d c, dropped = d ++ [c] -> (trimLoop buf size).2 + jslength c > 160000).
Proof.
  revert size. induction buf as [|a buf IH]; intros size.
  - exists []. rewrite trimLoop_nil. simpl. rewrite totalLength_nil.
    repeat split; [lia | right; lia | intros [|??] ? ?; discriminate].
  - destruct buf as [|b rest].
    + exists []. rewrite trimLoop_one. simpl. rewrite totalLength_nil.
      repeat split; [lia | right; lia | intros [|??] ? ?; discriminate].
    + rewrite trimLoop_more. destruct (size >? 160000) eqn:Hgt.
      * destruct (IH (size - jslength a)) as (dropped & Heq & Hsz & Hguard & Hmin).
        exists (a :: dropped). repeat split.
        -- rewrite <- app_comm_cons, <- Heq. reflexivity.
        -- rewrite Hsz, totalLength_cons. lia.
        -- exact Hguard.
        -- intros d c Hd. destruct dropped as [|x dropped'] using rev_ind.
           ++ destruct d as [|? [|??]]; simplify_eq/=.
              rewrite Hsz, totalLength_nil. lia.
           ++ change (a :: dropped' ++ [x]) with ((a :: dropped') ++ [x]) in Hd.
              apply app_inj_tail in Hd as [_ ->]. eapply Hmin. reflexivity.
      * exists []. simpl. rewrite totalLength_nil.
        repeat split; [lia | left; lia | intros [|??] ? ?; discriminate].
Qed.

Lemma trimLoop_keeps_last (kept : list jsstring) (data : jsstring) (size : Z) :
  exists kept', (trimLoop (kept ++ [data]) size).1 = kept' ++ [data].
Proof.
  revert size. induction kept as [|a kept IH]; intros size.
  - exists []. reflexivity.
  - rewrite <- app_comm_cons. destruct (kept ++ [data]) as [|b rest] eqn:E.
    + destruct kept; discriminate.
    + rewrite trimLoop_more. destruct (size >? 160000).
      * apply IH.
      * exists (a :: kept). rewrite <- app_comm_cons, E. reflexivity.
Qed.

(** A chunk larger than the low-water mark pushes out everything before
    it, whatever was there. *)
Lemma trimLoop_oversized (chunks : list jsstring) (data : jsstring) :
  jslength data > 160000 ->
  trimLoop (chunks ++ [data]) (totalLength chunks + jslength data) = ([data], jslength data).
Proof.
  intros Hbig. induction chunks as [|a chunks IH].
  - reflexivity.
  - rewrite <- app_comm_cons. destruct (chunks ++ [data]) as [|b rest] eqn:E.
    + destruct chunks; discriminate.
    + rewrite trimLoop_more, totalLength_cons.
      pose proof (jslength_nonneg a). pose proof (totalLength_nonneg chunks).
      replace (jslength a + totalLength chunks + jslength data >? 160000) with true
        by (symmetry; apply Z.gtb_lt; lia).
      replace (jslength a + totalLength chunks + jslength data - jslength a)
        with (totalLength chunks + jslength data) by lia.
      exact IH.
Qed.

Lemma pushOutput_unfold (data : jsstring) (chunks : list jsstring) (size : Z) :
  pushOutput data (chunks, size) =
  if size + jslength data >? 200000
  then trimLoop (chunks ++ [data]) (size + jslength data)
  else (chunks ++ [data], size + jslength data).
Proof. reflexivity. Qed.

(** Appending keeps the tracked size in step with the chunks. *)
Lemma pushOutput_consistent (data : jsstring) (b : OutputBuffer) :
  consistent b -> consistent (pushOutput data b).
Proof.
  destruct b as [chunks size]. unfold consistent. simpl. intros ->.
  rewrite pushOutput_unfold. destruct (_ >? 200000).
  - destruct (trimLoop_spec (chunks ++ [data]) (totalLength chunks + jslength data))
      as (dropped & Heq & Hsz & _).
    rewrite Hsz.
    assert (totalLength (chunks ++ [data]) =
            totalLength dropped + totalLength (trimLoop (chunks ++ [data])
              (totalLength chunks + jslength data)).1) as Hsum
      by (rewrite <- totalLength_app, <- Heq; reflexivity).
    rewrite totalLength_app, totalLength_cons, totalLength_nil in Hsum. lia.
  - simpl. rewrite totalLength_app, totalLength_cons, totalLength_nil. lia.
Qed.

Lemma pushOutput_keeps_last (data : jsstring) (b : OutputBuffer) :
  exists kept, (pushOutput data b).1 = kept ++ [data].
Proof.
  destruct b as [chunks size]. rewrite pushOutput_unfold.
  destruct (_ >? 200000).
  - apply trimLoop_keeps_last.
  - exists chunks. reflexivity.
Qed.

(** The scenario of the specification on any two chunks of these lengths. *)
Lemma pushOutput_scenario (a b : jsstring) :
  jslength a = 150000 -> jslength b = 60000 ->
  pushOutput a emptyBuffer = ([a], 150000) /\
  pushOutput b ([a], 150000) = ([b], 60000).
Proof.
  intros Ha Hb. unfold emptyBuffer. rewrite !pushOutput_unfold, Ha, Hb.
  split; [reflexivity|].
  change ([a] ++ [b]) with [a; b]. change (150000 + 60000 >? 200000) with true.
  cbv iota. rewrite trimLoop_more. change (150000 + 60000 >? 160000) with true.
  cbv iota. rewrite trimLoop_one, Ha. reflexivity.
Qed.

(** C1, as stated, fails on the code in both bounds: after ["a"x150000]
    the chunk ["b"x60000] leaves 60000, below the low-water mark; and one
    chunk of 200001 units on an empty buffer leaves 200001, above the
    high-water mark. *)
Lemma C1_counterexample :
  ~ (forall (b : OutputBuffer) (data : jsstring),
       consistent b -> b.2 + jslength data > 200000 ->
       160000 <= (pushOutput data b).2) /\
  ~ (forall (b : OutputBuffer) (data : jsstring),
       consistent b -> b.2 + jslength data > 200000 ->
       (pushOutput data b).2 <= 200000).
Proof.
  split; intros H.
  - specialize (H ([jsrepeat 97 150000], 150000) (jsrepeat 98 60000)).
    destruct (pushOutput_scenario (jsrepeat 97 150000) (jsrepeat 98 60000)) as [_ E];
      [apply jslength_repeat .. |].
    rewrite E in H. cbn [fst snd] in H. rewrite jslength_repeat in H.
    unfold consistent in H. cbn [fst snd] in H.
    rewrite totalLength_cons, totalLength_nil, jslength_repeat in H. lia.
  - specialize (H emptyBuffer (jsrepeat 97 200001)).
    unfold emptyBuffer in H. rewrite pushOutput_unfold in H.
    cbn [fst snd] in H. rewrite jslength_repeat in H.
    change (0 + Z.of_N 200001 >? 200000) with true in H. cbv iota in H.
    change ([] ++ [jsrepeat 97 200001]) with [jsrepeat 97 200001] in H.
    rewrite trimLoop_one in H. cbn [fst snd] in H.
    unfold consistent in H. cbn [fst snd] in H. rewrite totalLength_nil in H. lia.
Qed.

(** C1 (amended).  When an append takes the tracked size above 200000, the
    loop drops whole oldest chunks and stops as soon as the tracked size is
    at most 160000 or only the appended chunk is left: what remains is a
    suffix of the chunk sequence that ends with the appended chunk, the
    tracked size went down by exactly the lengths dropped, the chunk
    dropped last was still needed to get to 160000, and the size ends at
    most 160000 unless the appended chunk stands alone. *)
Theorem C1_trim_settles (b : OutputBuffer) (data : jsstring)
    (Hover : b.2 + jslength data > 200000) :
  exists dropped kept,
    b.1 ++ [data] = dropped ++ (pushOutput data b).1 /\
    (pushOutput data b).1 = kept ++ [data] /\
    (pushOutput data b).2 = b.2 + jslength data - totalLength dropped /\
    (forall d c, dropped = d ++ [c] -> (pushOutput data b).2 + jslength c > 160000) /\
    ((pushOutput data b).2 <= 160000 \/ (pushOutput data b).1 = [data]) /\
    (consistent b ->
       consistent (pushOutput data b) /\
       ((pushOutput data b).2 <= 200000 \/
        (pushOutput data b) = ([data], jslength data))).
Proof.
  destruct (pushOutput_keeps_last data b) as [kept Hkept].
  pose proof (pushOutput_consistent data b) as Hcons.
  destruct b as [chunks size]. cbn [fst snd] in *.
  rewrite pushOutput_unfold in *.
  replace (size + jslength data >? 200000) with true in *
    by (symmetry; apply Z.gtb_lt; lia).
  destruct (trimLoop_spec (chunks ++ [data]) (size + jslength data))
    as (dropped & Heq & Hsz & Hguard & Hmin).
  set (r := trimLoop (chunks ++ [data]) (size + jslength data)) in *.
  assert (r.2 <= 160000 \/ r.1 = [data]) as Hsettled.
  { destruct Hguard as [?|Hlen]; [by left | right].
    rewrite Hkept in Hlen |- *. rewrite length_app in Hlen. simpl in Hlen.
    destruct kept; [reflexivity | simpl in Hlen; lia]. }
  exists dropped, kept. repeat split; try assumption.
  - by apply Hcons.
  - destruct Hsettled as [?|Hone]; [left; lia|].
    specialize (Hcons H). unfold consistent in Hcons.
    rewrite Hone, totalLength_cons, totalLength_nil in Hcons.
    destruct (decide (r.2 <= 200000)); [by left | right].
    apply injective_projections; cbn [fst snd]; [exact Hone | lia].
Qed.

Lemma C1_trim_settles_witness :
  exists dropped kept,
    [jsrepeat 97 150000] ++ [jsrepeat 98 60000] =
      dropped ++ (pushOutput (jsrepeat 98 60000) ([jsrepeat 97 150000], 150000)).1 /\
    (pushOutput (jsrepeat 98 60000) ([jsrepeat 97 150000], 150000)).1 =
      kept ++ [jsrepeat 98 60000].
Proof.
  destruct (C1_trim_settles ([jsrepeat 97 150000], 150000) (jsrepeat 98 60000))
    as (dropped & kept & H1 & H2 & _).
  - cbn [fst snd]. rewrite jslength_repeat. lia.
  - exists dropped, kept. split; assumption.
Defined.

(** C8.  From the empty buffer, ["a".repeat(150000)] and then
    ["b".repeat(60000)]: the first chunk is dropped whole, the tracked size
    is 60000, and the buffer is exactly the complete second chunk. *)
Theorem C8_scenario_150000_60000 :
  let a := jsrepeat 97 150000 in
  let b := jsrepeat 98 60000 in
  let r := pushOutput b (pushOutput a emptyBuffer) in
  r = ([b], 60000) /\
  r.2 <= 200000 /\
  last r.1 = Some b /\
  jslength b = 60000 /\
  consistent r.
Proof.
  intros a b r.
  destruct (pushOutput_scenario a b) as [E1 E2]; [apply jslength_repeat .. |].
  assert (r = ([b], 60000)) as -> by (unfold r; rewrite E1; exact E2).
  cbn [fst snd].
  split; [reflexivity | split; [lia | split; [reflexivity | split]]].
  - apply jslength_repeat.
  - unfold consistent. cbn [fst snd].
    rewrite totalLength_cons, totalLength_nil. unfold b. rewrite jslength_repeat. lia.
Qed.

(** C9.  The loop never removes the chunk just appended: after any append
    the buffer is not empty and ends with that chunk.  A chunk that alone
    exceeds 200000 is therefore kept whole, as the only chunk, with the
    tracked size above the mark; the next append, whatever it is, drops
    it. *)
Theorem C9_last_chunk_kept (b : OutputBuffer) (data : jsstring) :
  (pushOutput data b).1 <> [] /\
  last (pushOutput data b).1 = Some data /\
  (pushOutput data b).1 `suffix_of` (b.1 ++ [data]) /\
  (consistent b -> jslength data > 200000 ->
     pushOutput data b = ([data], jslength data) /\
     (pushOutput data b).2 > 200000 /\
     forall next, pushOutput next (pushOutput data b) = ([next], jslength next)).
Proof.
  destruct (pushOutput_keeps_last data b) as [kept Hkept].
  split; [|split; [|split]].
  - rewrite Hkept. destruct kept; discriminate.
  - rewrite Hkept. apply last_snoc.
  - destruct b as [chunks size]. rewrite pushOutput_unfold. cbn [fst snd].
    destruct (_ >? 200000); [|done].
    destruct (trimLoop_spec (chunks ++ [data]) (size + jslength data)) as (dropped & Heq & _).
    exists dropped. exact Heq.
  - intros Hcons Hbig. destruct b as [chunks size].
    unfold consistent in Hcons. cbn [fst snd] in Hcons. subst size.
    pose proof (totalLength_nonneg chunks) as Hnn.
    assert (pushOutput data (chunks, totalLength chunks) = ([data], jslength data)) as E.
    { rewrite pushOutput_unfold.
      replace (totalLength chunks + jslength data >? 200000) with true
        by (symmetry; apply Z.gtb_lt; lia).
      apply trimLoop_oversized. lia. }
    rewrite E. cbn [fst snd]. split; [reflexivity | split; [lia|]].
    intros next. rewrite pushOutput_unfold.
    pose proof (jslength_nonneg next).
    replace (jslength data + jslength next >? 200000) with true
      by (symmetry; apply Z.gtb_lt; lia).
    change ([data] ++ [next]) with [data; next]. rewrite trimLoop_more.
    replace (jslength data + jslength next >? 160000) with true
      by (symmetry; apply Z.gtb_lt; lia).
    rewrite trimLoop_one. f_equal. lia.
Qed.

Lemma C9_last_chunk_kept_witness :
  pushOutput (jsrepeat 97 200001) emptyBuffer =
    ([jsrepeat 97 200001], jslength (jsrepeat 97 200001)).
Proof.
  destruct (C9_last_chunk_kept emptyBuffer (jsrepeat 97 200001)) as (_ & _ & _ & H).
  destruct H as [E _].
  - reflexivity.
  - rewrite jslength_repeat. lia.
  - exact E.
Defined.

(** ** The registry *)

Section JsMapFacts.
Context {V : Type}.
Implicit Types (m : list (string * V)) (k : string) (v : V).

Lemma map_get_set_eq k v m : map_get k (map_set k v m) = Some v.
Proof.
  induction m as [|[k' v'] m IH]; simpl.
  - by rewrite decide_True.
  - destruct (decide (k = k')) as [->|Hne]; simpl.
    + by rewrite decide_True.
    + by rewrite decide_False.
Qed.

Lemma map_get_set_ne k k' v m : k <> k' -> map_get k' (map_set k v m) = map_get k' m.
Proof.
  intros Hne. induction m as [|[k0 v0] m IH]; simpl.
  - by rewrite decide_False.
  - destruct (decide (k = k0)) as [->|Hk]; simpl.
    + by rewrite !decide_False.
    + destruct (decide (k' = k0)); [reflexivity | exact IH].
Qed.

Lemma map_get_delete_eq k m : map_get k (map_delete k m) = None.
Proof.
  induction m as [|[k' v'] m IH]; simpl; [reflexivity|].
  destruct (decide (k = k')) as [->|Hne]; simpl; [exact IH|].
  by rewrite decide_False.
Qed.

Lemma map_get_delete_ne k k' m : k <> k' -> map_get k' (map_delete k m) = map_get k' m.
Proof.
  intros Hne. induction m as [|[k0 v0] m IH]; simpl; [reflexivity|].
  destruct (decide (k = k0)) as [->|Hk]; simpl.
  - by rewrite decide_False.
  - destruct (decide (k' = k0)); [reflexivity | exact IH].
Qed.

Lemma map_get_delete_Some k k' v m :
  map_get k' (map_delete k m) = Some v -> map_get k' m = Some v.
Proof.
  destruct (decide (k = k')) as [->|Hne].
  - by rewrite map_get_delete_eq.
  - by rewrite map_get_delete_ne.
Qed.

Lemma map_get_None_keys k m : map_get k m = None <-> k ∉ map_keys m.
Proof.
  unfold map_keys. induction m as [|[k' v'] m IH]; simpl.
  - split; [intros _; apply not_elem_of_nil | done].
  - rewrite not_elem_of_cons. destruct (decide (k = k')) as [->|Hne].
    + split; [discriminate | intros [? _]; done].
    + rewrite IH. tauto.
Qed.

Lemma map_delete_absent k m : k ∉ map_keys m -> map_delete k m = m.
Proof.
  unfold map_keys. induction m as [|[k' v'] m IH]; simpl; [reflexivity|].
  rewrite not_elem_of_cons. intros [Hne Hnot].
  rewrite decide_False by done. by rewrite IH.
Qed.

Lemma map_keys_delete k m : map_keys (map_delete k m) = filter (fun k' => k' <> k) (map_keys m).
Proof.
  unfold map_keys. induction m as [|[k' v'] m IH]; simpl; [reflexivity|].
  destruct (decide (k = k')) as [->|Hne].
  - rewrite filter_cons_False by (intros ?; done). exact IH.
  - rewrite filter_cons_True by done. simpl. f_equal. exact IH.
Qed.

Lemma map_keys_set k v m :
  map_keys (map_set k v m) = if map_has k m then map_keys m else map_keys m ++ [k].
Proof.
  unfold map_keys, map_has. induction m as [|[k' v'] m IH]; simpl; [reflexivity|].
  destruct (decide (k = k')) as [->|Hne]; simpl; [reflexivity|].
  destruct (map_get k m); simpl in IH |- *; f_equal; exact IH.
Qed.

(** A [Map] never holds a key twice. *)
Lemma map_set_NoDup k v m : NoDup (map_keys m) -> NoDup (map_keys (map_set k v m)).
Proof.
  intros Hnd. rewrite map_keys_set. unfold map_has.
  destruct (map_get k m) eqn:E; [exact Hnd|].
  apply NoDup_app. split; [exact Hnd | split; [|apply NoDup_singleton]].
  intros x Hx Hx'. apply list_elem_of_singleton in Hx'. subst x.
  by apply map_get_None_keys in E.
Qed.

Lemma map_delete_NoDup k m : NoDup (map_keys m) -> NoDup (map_keys (map_delete k m)).
Proof. intros Hnd. rewrite map_keys_delete. by apply NoDup_filter. Qed.

End JsMapFacts.

(** ** The methods, field by field *)

Ltac unfold_primitives :=
  unfold safeSend, notifyTerminalCountChange, logSent, logCounted, logBackend,
    bumpHandle, setInstances, setDisposed, setPtyAvailable, setWindowDestroyed,
    live, nativeOk, nativeTried in *.

Ltac split_state st :=
  destruct st as [insts disp pmod pav obs wdead snt cnt bk nh];
  destruct disp, pmod, pav, obs, wdead.

Lemma kill_fields (id : string) (st : State) :
  (kill id st).1 = map_has id (instances st) /\
  instances (kill id st).2 = map_delete id (instances st) /\
  disposed (kill id st).2 = disposed st /\
  ptyModule (kill id st).2 = ptyModule st /\
  ptyAvailable (kill id st).2 = ptyAvailable st /\
  countObserver (kill id st).2 = countObserver st /\
  windowDestroyed (kill id st).2 = windowDestroyed st /\
  sent (kill id st).2 = sent st /\
  counted (kill id st).2 =
    counted st ++ (if map_has id (instances st) && countObserver st
                   then [map_size (map_delete id (instances st))] else []) /\
  backend (kill id st).2 =
    backend st ++ (match map_get id (instances st) with
                   | Some i => [killCall i]
                   | None => []
                   end).
Proof.
  unfold kill, map_has, killCall. destruct (map_get id (instances st)) as [i|] eqn:E.
  - unfold_primitives. destruct st; simpl in *.
    destruct (usePty i), countObserver0; simpl; rewrite ?app_nil_r; by repeat split.
  - simpl. rewrite !app_nil_r. repeat split.
    symmetry. apply map_delete_absent. by apply map_get_None_keys.
Qed.

Lemma create_fields (w : World) (o : CreatePtyOptions) (st : State) :
  (create w o st).1 = nativeOk w st || negb (childSpawnThrows w) /\
  instances (create w o st).2 =
    (if (create w o st).1
     then map_set (o_id o) (newInstance (nextHandle st) o (nativeOk w st)) (instances st)
     else instances st) /\
  disposed (create w o st).2 = disposed st /\
  ptyModule (create w o st).2 = ptyModule st /\
  ptyAvailable (create w o st).2 =
    (if nativeTried st && ptySpawnThrows w then false else ptyAvailable st) /\
  countObserver (create w o st).2 = countObserver st /\
  windowDestroyed (create w o st).2 = windowDestroyed st /\
  sent (create w o st).2 =
    sent st ++ (if negb (nativeOk w st) && negb (childSpawnThrows w) && live st
                then [PtyOutput (o_id o) degradedNotice] else []) /\
  counted (create w o st).2 =
    counted st ++ (if (create w o st).1 && countObserver st
                   then [map_size (instances (create w o st).2)] else []) /\
  exists nativeCall pipedCall,
    backend (create w o st).2 =
      backend st
      ++ (if nativeTried st
          then [PtySpawn nativeCall
                  (if ptySpawnThrows w then None else Some (nextHandle st))]
          else [])
      ++ (if nativeOk w st then []
          else [ChildSpawn pipedCall
                  (if childSpawnThrows w then None else Some (nextHandle st))]).
Proof.
  remember (create w o st) as r eqn:Hr.
  unfold create, createNative, createPiped in Hr.
  destruct (resolveExecutable w o) as [exe args].
  destruct w as [hp cp ds pthrows cthrows].
  unfold safeSend, notifyTerminalCountChange in Hr.
  unfold live, nativeOk, nativeTried.
  split_state st; destruct pthrows, cthrows; cbn in Hr; subst r; cbn;
    rewrite ?app_nil_r;
    repeat match goal with |- _ /\ _ => split end;
    try (exists (mkSpawn exe args (o_cwd o)); eexists);
    try (rewrite <- ?app_assoc; reflexivity).
  all: exact (mkSpawn exe args (o_cwd o)).
Qed.

Lemma restart_unfold (w : World) (id newCwd : string) (shell : option string)
    (agent : option CodeAgentType) (st : State) :
  restart w id newCwd shell agent st =
  match map_get id (instances st) with
  | Some instance =>
      let r := create w (mkOptions id newCwd (type instance) shell agent) (kill id st).2 in
      if r.1 then
        match map_get id (instances r.2) with
        | Some newInstance =>
            (true,
             setInstances
               (map_set id
                  (withBuffer (outputBuffer instance, outputBufferSize instance) newInstance)
                  (instances r.2)) r.2)
        | None => (true, r.2)
        end
      else (false, r.2)
  | None => (false, st)
  end.
Proof.
  unfold restart. destruct (map_get id (instances st)) as [instance|]; [|reflexivity].
  cbv zeta. destruct (create _ _ _) as [[|] st']; reflexivity.
Qed.

(** After a successful [create] the id is registered with the new instance. *)
Lemma create_registers (w : World) (o : CreatePtyOptions) (st : State) :
  (create w o st).1 = true ->
  map_get (o_id o) (instances (create w o st).2) =
    Some (newInstance (nextHandle st) o (nativeOk w st)).
Proof.
  intros Hok. destruct (create_fields w o st) as (_ & Hinst & _).
  rewrite Hinst, Hok. apply map_get_set_eq.
Qed.

Lemma dispose_unfold (st : State) :
  dispose st = killAll (map_keys (instances st)) (setDisposed true st).
Proof. reflexivity. Qed.

Lemma killAll_fields (ids : list string) (st : State) :
  instances (killAll ids st) = foldl (fun m k => map_delete k m) (instances st) ids /\
  disposed (killAll ids st) = disposed st /\
  ptyModule (killAll ids st) = ptyModule st /\
  ptyAvailable (killAll ids st) = ptyAvailable st /\
  countObserver (killAll ids st) = countObserver st /\
  windowDestroyed (killAll ids st) = windowDestroyed st /\
  sent (killAll ids st) = sent st /\
  exists calls,
    backend (killAll ids st) = backend st ++ calls /\
    Forall (fun c => isPtySpawn c = false) calls.
Proof.
  revert st. induction ids as [|id ids IH]; intros st.
  - simpl. repeat split. exists []. by rewrite app_nil_r.
  - change (killAll (id :: ids) st) with (killAll ids (kill id st).2).
    destruct (IH (kill id st).2) as (Hi & Hd & Hm & Ha & Ho & Hw & Hs & calls & Hb & Hc).
    destruct (kill_fields id st) as (_ & Ki & Kd & Km & Ka & Ko & Kw & Ks & _ & Kb).
    rewrite Hi, Hd, Hm, Ha, Ho, Hw, Hs, Hb, Ki, Kd, Km, Ka, Ko, Kw, Ks, Kb.
    repeat split.
    eexists. rewrite <- app_assoc. split; [reflexivity|].
    apply Forall_app. split; [|exact Hc].
    destruct (map_get id (instances st)) as [i|]; [|constructor].
    constructor; [|constructor]. unfold killCall. by destruct (usePty i).
Qed.

Lemma delete_all_keys (ids : list string) (m : list (string * PtyInstance)) :
  (forall k, k ∈ map_keys m -> k ∈ ids) ->
  foldl (fun m k => map_delete k m) m ids = [].
Proof.
  revert m. induction ids as [|id ids IH]; intros m Hsub.
  - destruct m as [|[k v] m]; [reflexivity|].
    exfalso. eapply not_elem_of_nil, (Hsub k). unfold map_keys. simpl. left.
  - simpl. apply IH. intros k Hk. rewrite map_keys_delete in Hk.
    apply list_elem_of_filter in Hk as [Hne Hk].
    apply Hsub in Hk. apply elem_of_cons in Hk as [->|Hk]; [done | exact Hk].
Qed.

(** On a registry with distinct keys the loop kills the sessions one by
    one in registry order; the observer, when there is one, sees the count
    go down to zero. *)
Lemma killAll_exact (m : list (string * PtyInstance)) (st : State) :
  instances st = m -> NoDup (map_keys m) ->
  instances (killAll (map_keys m) st) = [] /\
  backend (killAll (map_keys m) st) = backend st ++ map (fun kv => killCall kv.2) m /\
  counted (killAll (map_keys m) st) =
    counted st ++ (if countObserver st then countdown (length m) else []).
Proof.
  revert st. induction m as [|[k v] m IH]; intros st Hm Hnd.
  - simpl. destruct (countObserver st); rewrite !app_nil_r; by repeat split.
  - change (map_keys ((k, v) :: m)) with (k :: map_keys m) in *.
    change (killAll (k :: map_keys m) st) with (killAll (map_keys m) (kill k st).2).
    apply NoDup_cons in Hnd as [Hk Hnd].
    destruct (kill_fields k st) as (_ & Ki & _ & _ & _ & Ko & _ & _ & Kc & Kb).
    assert (map_get k ((k, v) :: m) = Some v) as Hget
      by (simpl; by rewrite decide_True).
    assert (map_delete k ((k, v) :: m) = m) as Hdel
      by (simpl; rewrite decide_True by done; by apply map_delete_absent).
    unfold map_has in Kc. rewrite Hm in Ki, Kc, Kb.
    rewrite Hdel in Ki, Kc. rewrite Hget in Kc, Kb. simpl in Kc.
    destruct (IH (kill k st).2 Ki Hnd) as (Hi & Hb & Hc).
    rewrite Hi, Hb, Hc, Kb, Kc, Ko. repeat split.
    + by rewrite <- app_assoc.
    + destruct (countObserver st); simpl; rewrite <- ?app_assoc, ?app_nil_r; reflexivity.
Qed.

Lemma restart_fields (w : World) (id newCwd : string) (shell : option string)
    (agent : option CodeAgentType) (st : State) :
  (map_get id (instances st) = None /\
   restart w id newCwd shell agent st = (false, st)) \/
  (exists instance,
     map_get id (instances st) = Some instance /\
     let r := create w (mkOptions id newCwd (type instance) shell agent) (kill id st).2 in
     let R := restart w id newCwd shell agent st in
     R.1 = r.1 /\
     instances R.2 =
       (if r.1
        then map_set id
               (withBuffer (outputBuffer instance, outputBufferSize instance)
                  (newInstance (nextHandle st)
                     (mkOptions id newCwd (type instance) shell agent)
                     (nativeOk w st)))
               (map_delete id (instances st))
        else map_delete id (instances st)) /\
     disposed R.2 = disposed r.2 /\
     ptyModule R.2 = ptyModule r.2 /\
     ptyAvailable R.2 = ptyAvailable r.2 /\
     countObserver R.2 = countObserver r.2 /\
     windowDestroyed R.2 = windowDestroyed r.2 /\
     sent R.2 = sent r.2 /\
     counted R.2 = counted r.2 /\
     backend R.2 = backend r.2).
Proof.
  rewrite restart_unfold.
  destruct (map_get id (instances st)) as [instance|] eqn:E; [right | by left].
  exists instance. split; [reflexivity|]. cbv zeta.
  set (o := mkOptions id newCwd (type instance) shell agent).
  destruct (kill_fields id st) as (_ & Ki & Kd & Km & Ka & _).
  assert (nextHandle (kill id st).2 = nextHandle st) as Kh.
  { unfold kill. rewrite E. unfold_primitives. by destruct (usePty instance), (countObserver st). }
  assert (nativeOk w (kill id st).2 = nativeOk w st) as Kn
    by (unfold nativeOk, nativeTried; by rewrite Ka, Km).
  pose proof (create_registers w o (kill id st).2) as Hreg.
  destruct (create_fields w o (kill id st).2) as (_ & Hinst & _).
  change (o_id o) with id in Hreg, Hinst.
  destruct (create w o (kill id st).2) as [[|] st'] eqn:Ecreate; cbn [fst snd] in *.
  - rewrite Hreg by reflexivity. cbn [fst snd instances setInstances].
    repeat split. rewrite Hinst, Ki, Kh, Kn.
    clear. induction (map_delete id (instances st)) as [|[k v] m IH]; simpl.
    + by rewrite decide_True.
    + destruct (decide (id = k)) as [->|Hne]; simpl.
      * by rewrite decide_True.
      * rewrite decide_False by done. by rewrite IH.
  - repeat split. by rewrite Hinst, Ki.
Qed.

(** ** What no step undoes *)

Ltac simple_op :=
  unfold write, resize, clearOutputBuffer, onData, onChildExit, onExit, onChildError,
    safeSend, notifyTerminalCountChange, logSent, logCounted, logBackend, setInstances,
    setWindowDestroyed;
  repeat case_match; simpl in *.

(** Once disposed, always disposed, and nothing more reaches the window. *)
Lemma step_disposed (op : Op) (st : State) :
  disposed st = true ->
  disposed (step op st) = true /\ sent (step op st) = sent st.
Proof.
  intros Hd. destruct op; simpl.
  - destruct (create_fields w o st) as (_ & _ & -> & _ & _ & _ & _ & -> & _).
    unfold live. rewrite Hd, andb_false_r. simpl. by rewrite app_nil_r.
  - destruct st; simpl in Hd; subst; simple_op; simplify_eq/=; done.
  - destruct st; simpl in Hd; subst; simple_op; simplify_eq/=; done.
  - by destruct (kill_fields id st) as (_ & _ & -> & _ & _ & _ & _ & -> & _).
  - destruct (restart_fields w id newCwd shell codeAgentType st)
      as [[_ ->] | (instance & _ & _ & _ & -> & _ & _ & _ & _ & -> & _)]; [done|].
    match goal with |- context [create ?w ?o ?s] =>
      destruct (create_fields w o s) as (_ & _ & -> & _ & _ & _ & _ & -> & _) end.
    destruct (kill_fields id st) as (_ & _ & Kd & _ & _ & _ & _ & -> & _).
    unfold live. rewrite Kd, Hd, andb_false_r. simpl. by rewrite app_nil_r.
  - destruct st; simpl in Hd; subst; simple_op; simplify_eq/=; done.
  - rewrite dispose_unfold.
    by destruct (killAll_fields (map_keys (instances st)) (setDisposed true st))
      as (_ & -> & _ & _ & _ & _ & -> & _).
  - destruct st; simpl in Hd; subst; simple_op; simplify_eq/=; done.
  - destruct st; simpl in Hd; subst; simple_op; simplify_eq/=; done.
  - destruct st; simpl in Hd; subst; simple_op; simplify_eq/=; done.
  - destruct st; simpl in Hd; subst; simple_op; simplify_eq/=; done.
  - done.
Qed.

Lemma run_nil (st : State) : run [] st = st.
Proof. reflexivity. Qed.

Lemma run_cons (op : Op) (ops : list Op) (st : State) :
  run (op :: ops) st = run ops (step op st).
Proof. reflexivity. Qed.

Lemma run_disposed (ops : list Op) (st : State) :
  disposed st = true ->
  disposed (run ops st) = true /\ sent (run ops st) = sent st.
Proof.
  revert st. induction ops as [|op ops IH]; intros st Hd; [done|].
  rewrite run_cons. destruct (step_disposed op st Hd) as [Hd' Hs].
  destruct (IH _ Hd') as [? ?]. split; congruence.
Qed.

(** Once the native flag is down no step raises it, and no step calls
    [pty.spawn]. *)
Lemma step_native_off (op : Op) (st : State) :
  ptyAvailable st = false ->
  ptyAvailable (step op st) = false /\
  exists calls,
    backend (step op st) = backend st ++ calls /\
    Forall (fun c => isPtySpawn c = false) calls.
Proof.
  intros Ha. destruct op; simpl.
  - destruct (create_fields w o st) as (_ & _ & _ & _ & -> & _ & _ & _ & _ & nc & pc & ->).
    unfold nativeOk, nativeTried. rewrite Ha. simpl. split; [reflexivity|].
    eexists. split; [reflexivity|]. by repeat constructor.
  - simple_op; (split; [done|]); first [exists []; by rewrite app_nil_r | eexists; split; [reflexivity | by repeat constructor]].
  - simple_op; (split; [done|]); first [exists []; by rewrite app_nil_r | eexists; split; [reflexivity | by repeat constructor]].
  - destruct (kill_fields id st) as (_ & _ & _ & _ & -> & _ & _ & _ & _ & ->).
    split; [done|]. eexists. split; [reflexivity|].
    destruct (map_get id (instances st)) as [i|]; [|constructor].
    unfold killCall. destruct (usePty i); by repeat constructor.
  - destruct (restart_fields w id newCwd shell codeAgentType st)
      as [[_ ->] | (instance & Hget & _ & _ & _ & _ & -> & _ & _ & _ & _ & ->)].
    { split; [done|]. exists []. by rewrite app_nil_r. }
    match goal with |- context [create ?w ?o ?s] =>
      destruct (create_fields w o s) as (_ & _ & _ & _ & -> & _ & _ & _ & _ & nc & pc & ->) end.
    destruct (kill_fields id st) as (_ & _ & _ & Km & Ka' & _ & _ & _ & _ & ->).
    unfold nativeOk, nativeTried. rewrite Ka', Ha, Hget. simpl. split; [reflexivity|].
    eexists. rewrite <- app_assoc. split; [reflexivity|].
    unfold killCall. destruct (usePty instance); by repeat constructor.
  - simple_op; (split; [done|]); exists []; by rewrite app_nil_r.
  - rewrite dispose_unfold.
    destruct (killAll_fields (map_keys (instances st)) (setDisposed true st))
      as (_ & _ & _ & -> & _ & _ & _ & calls & -> & Hc).
    split; [done|]. by exists calls.
  - simple_op; (split; [done|]); exists []; by rewrite app_nil_r.
  - simple_op; (split; [done|]); exists []; by rewrite app_nil_r.
  - simple_op; (split; [done|]); exists []; by rewrite app_nil_r.
  - simple_op; (split; [done|]); exists []; by rewrite app_nil_r.
  - split; [done|]. exists []. by rewrite app_nil_r.
Qed.

Lemma run_native_off (ops : list Op) (st : State) :
  ptyAvailable st = false ->
  ptyAvailable (run ops st) = false /\
  exists calls,
    backend (run ops st) = backend st ++ calls /\
    Forall (fun c => isPtySpawn c = false) calls.
Proof.
  revert st. induction ops as [|op ops IH]; intros st Ha.
  - split; [done|]. exists []. by rewrite app_nil_r.
  - rewrite run_cons. destruct (step_native_off op st Ha) as (Ha' & c1 & Hb1 & Hc1).
    destruct (IH _ Ha') as (Ha'' & c2 & Hb2 & Hc2).
    split; [exact Ha''|]. exists (c1 ++ c2).
    rewrite Hb2, Hb1, <- app_assoc. split; [reflexivity|]. by apply Forall_app.
Qed.

(** ** The tracked size across the manager *)

Lemma consistentMap_set (k : string) (v : PtyInstance) (m : list (string * PtyInstance)) :
  consistentMap m -> consistent (bufferOf v) -> consistentMap (map_set k v m).
Proof.
  intros Hm Hv id i. destruct (decide (k = id)) as [->|Hne].
  - rewrite map_get_set_eq. by intros [= <-].
  - rewrite map_get_set_ne by done. apply Hm.
Qed.

Lemma consistentMap_delete (k : string) (m : list (string * PtyInstance)) :
  consistentMap m -> consistentMap (map_delete k m).
Proof. intros Hm id i Hget. eapply Hm, map_get_delete_Some, Hget. Qed.

Lemma consistentMap_delete_all (ids : list string) (m : list (string * PtyInstance)) :
  consistentMap m -> consistentMap (foldl (fun m k => map_delete k m) m ids).
Proof.
  revert m. induction ids as [|k ids IH]; intros m Hm; [exact Hm|].
  simpl. by apply IH, consistentMap_delete.
Qed.

Lemma consistent_withBuffer (b : OutputBuffer) (i : PtyInstance) :
  consistent b -> consistent (bufferOf (withBuffer b i)).
Proof. by destruct b. Qed.

Lemma consistent_newInstance (h : nat) (o : CreatePtyOptions) (viaPty : bool) :
  consistent (bufferOf (newInstance h o viaPty)).
Proof. reflexivity. Qed.

Lemma step_consistent (op : Op) (st : State) :
  allConsistent st -> allConsistent (step op st).
Proof.
  unfold allConsistent. intros Hst. destruct op; simpl.
  - destruct (create_fields w o st) as (_ & -> & _).
    destruct (create w o st).1; [|exact Hst].
    apply consistentMap_set; [exact Hst | apply consistent_newInstance].
  - unfold write. repeat case_match; exact Hst.
  - unfold resize. repeat case_match; exact Hst.
  - destruct (kill_fields id st) as (_ & -> & _). by apply consistentMap_delete.
  - destruct (restart_fields w id newCwd shell codeAgentType st)
      as [[_ ->] | (instance & Hget & _ & -> & _)]; [exact Hst|].
    case_match.
    + apply consistentMap_set; [by apply consistentMap_delete|].
      apply consistent_withBuffer. exact (Hst _ _ Hget).
    + by apply consistentMap_delete.
  - unfold clearOutputBuffer. destruct (map_get id (instances st)) as [i|] eqn:E; [|exact Hst].
    apply consistentMap_set; [exact Hst | reflexivity].
  - rewrite dispose_unfold.
    destruct (killAll_fields (map_keys (instances st)) (setDisposed true st)) as (-> & _).
    by apply consistentMap_delete_all.
  - unfold onData. destruct (map_get id (instances st)) as [i|] eqn:E.
    + unfold safeSend. case_match; simpl.
      all: apply consistentMap_set; [exact Hst|].
      all: apply consistent_withBuffer, pushOutput_consistent, (Hst _ _ E).
    + unfold safeSend. case_match; exact Hst.
  - unfold onExit, notifyTerminalCountChange, safeSend. repeat case_match; simpl.
    all: by apply consistentMap_delete.
  - unfold onChildExit, onExit, notifyTerminalCountChange, safeSend.
    repeat case_match; simpl. all: by apply consistentMap_delete.
  - unfold onChildError, safeSend. case_match; exact Hst.
  - exact Hst.
Qed.

Lemma run_consistent (ops : list Op) (st : State) :
  allConsistent st -> allConsistent (run ops st).
Proof.
  revert st. induction ops as [|op ops IH]; intros st Hst; [exact Hst|].
  rewrite run_cons. by apply IH, step_consistent.
Qed.

(** C7.  In every state the manager reaches, each session's tracked size
    is the sum of the lengths of its chunks: it is so after construction
    and every method and callback keeps it so, updating the size by
    additions and subtractions alone; the sum is the length the
    concatenation would have. *)
Theorem C7_tracked_size_is_sum (ptyLoads spawnIsFunction observer : bool)
    (ops : list Op) (id : string) (instance : PtyInstance) :
  map_get id (instances (run ops (initialState ptyLoads spawnIsFunction observer)))
    = Some instance ->
  outputBufferSize instance = totalLength (outputBuffer instance) /\
  outputBufferSize instance = jslength (join (outputBuffer instance)).
Proof.
  intros Hget.
  assert (allConsistent (run ops (initialState ptyLoads spawnIsFunction observer))) as Hall.
  { apply run_consistent. intros ? ? [=]. }
  specialize (Hall _ _ Hget). unfold consistent in Hall. simpl in Hall.
  split; [exact Hall|]. by rewrite <- totalLength_join.
Qed.

Lemma C7_tracked_size_is_sum_witness :
  outputBufferSize (mkInstance 0 terminal "/tmp" true [js "hi"] 2) =
    totalLength (outputBuffer (mkInstance 0 terminal "/tmp" true [js "hi"] 2)).
Proof.
  apply (C7_tracked_size_is_sum true true true
           [OpCreate (mkWorld "happy" "claude" "/bin/sh" false false)
              (mkOptions "s1" "/tmp" terminal None None);
            EvData "s1" (js "hi")]
           "s1" (mkInstance 0 terminal "/tmp" true [js "hi"] 2)).
  reflexivity.
Defined.

(** ** The registry holds each id once *)

Lemma delete_all_NoDup (ids : list string) (m : list (string * PtyInstance)) :
  NoDup (map_keys m) -> NoDup (map_keys (foldl (fun m k => map_delete k m) m ids)).
Proof.
  revert m. induction ids as [|k ids IH]; intros m Hm; [exact Hm|].
  simpl. by apply IH, map_delete_NoDup.
Qed.

Lemma step_NoDup (op : Op) (st : State) :
  NoDup (map_keys (instances st)) -> NoDup (map_keys (instances (step op st))).
Proof.
  intros Hst. destruct op; simpl.
  - destruct (create_fields w o st) as (_ & -> & _).
    destruct (create w o st).1; [by apply map_set_NoDup | exact Hst].
  - unfold write. repeat case_match; exact Hst.
  - unfold resize. repeat case_match; exact Hst.
  - destruct (kill_fields id st) as (_ & -> & _). by apply map_delete_NoDup.
  - destruct (restart_fields w id newCwd shell codeAgentType st)
      as [[_ ->] | (instance & Hget & _ & -> & _)]; [exact Hst|].
    case_match; [apply map_set_NoDup|]; by apply map_delete_NoDup.
  - unfold clearOutputBuffer. destruct (map_get id (instances st)); [|exact Hst].
    by apply map_set_NoDup.
  - rewrite dispose_unfold.
    destruct (killAll_fields (map_keys (instances st)) (setDisposed true st)) as (-> & _).
    by apply delete_all_NoDup.
  - unfold onData. destruct (map_get id (instances st)).
    + unfold safeSend. case_match; simpl; by apply map_set_NoDup.
    + unfold safeSend. case_match; exact Hst.
  - unfold onExit, notifyTerminalCountChange, safeSend. repeat case_match; simpl.
    all: by apply map_delete_NoDup.
  - unfold onChildExit, onExit, notifyTerminalCountChange, safeSend.
    repeat case_match; simpl. all: by apply map_delete_NoDup.
  - unfold onChildError, safeSend. case_match; exact Hst.
  - exact Hst.
Qed.

Lemma run_NoDup (ops : list Op) (ptyLoads spawnIsFunction observer : bool) :
  NoDup (map_keys (instances (run ops (initialState ptyLoads spawnIsFunction observer)))).
Proof.
  assert (forall st, NoDup (map_keys (instances st)) ->
                     NoDup (map_keys (instances (run ops st)))) as Hrun.
  { induction ops as [|op ops IH]; intros st Hst; [exact Hst|].
    rewrite run_cons. by apply IH, step_NoDup. }
  apply Hrun. constructor.
Qed.

(** ** Unknown ids *)

(** C5.  For an id that is not in the registry: [exists] is false;
    [write], [resize] and [clearOutputBuffer] return the state they were
    given; [kill] returns false and the same state; [getCwd] and
    [getOutputBuffer] return null. *)
Theorem C5_unknown_id (st : State) (id : string)
    (Habsent : map_get id (instances st) = None) :
  exists_ id st = false /\
  (forall data, write id data st = st) /\
  (forall cols rows, resize id cols rows st = st) /\
  clearOutputBuffer id st = st /\
  kill id st = (false, st) /\
  getCwd id st = None /\
  getOutputBuffer id st = None.
Proof.
  unfold exists_, map_has, write, resize, clearOutputBuffer, kill, getCwd, getOutputBuffer.
  rewrite Habsent. by repeat split.
Qed.

(** An id never created is absent, and so is one just killed or exited. *)
Lemma absent_initially (ptyLoads spawnIsFunction observer : bool) (id : string) :
  map_get id (instances (initialState ptyLoads spawnIsFunction observer)) = None.
Proof. reflexivity. Qed.

Lemma absent_after_kill (id : string) (st : State) :
  map_get id (instances (kill id st).2) = None.
Proof.
  destruct (kill_fields id st) as (_ & -> & _). apply map_get_delete_eq.
Qed.

Lemma absent_after_exit (id : string) (exitCode : Z) (st : State) :
  map_get id (instances (onExit id exitCode st)) = None.
Proof.
  unfold onExit, notifyTerminalCountChange, safeSend.
  repeat case_match; simpl; apply map_get_delete_eq.
Qed.

Lemma C5_unknown_id_witness :
  kill "s1" (initialState true true true) = (false, initialState true true true).
Proof.
  apply (C5_unknown_id (initialState true true true) "s1"). reflexivity.
Defined.

(** ** Restart *)

(** C2.  For a registered id, [restart] succeeds exactly when one of the
    two spawns does.  Then the id is registered with a new instance that
    carries the old chunk array and tracked size (and the new cwd), so the
    snapshot [getOutputBuffer] returns is the one it returned before.
    Otherwise [restart] returns false and the id is no longer
    registered. *)
Theorem C2_restart_keeps_buffer (w : World) (id newCwd : string)
    (shell : option string) (agent : option CodeAgentType)
    (st : State) (instance : PtyInstance)
    (Hreg : map_get id (instances st) = Some instance) :
  let R := restart w id newCwd shell agent st in
  if nativeOk w st || negb (childSpawnThrows w)
  then R.1 = true /\
       (exists newInstance,
          map_get id (instances R.2) = Some newInstance /\
          outputBuffer newInstance = outputBuffer instance /\
          outputBufferSize newInstance = outputBufferSize instance /\
          cwd newInstance = newCwd /\
          type newInstance = type instance) /\
       getOutputBuffer id R.2 = getOutputBuffer id st
  else R.1 = false /\ exists_ id R.2 = false.
Proof.
  intros R. subst R.
  destruct (restart_fields w id newCwd shell agent st)
    as [[Hnone _] | (instance' & Hget & Hres & Hinst & _)]; [congruence|].
  rewrite Hreg in Hget. injection Hget as <-.
  set (o := mkOptions id newCwd (type instance) shell agent) in *.
  destruct (create_fields w o (kill id st).2) as (Hok & _).
  destruct (kill_fields id st) as (_ & _ & _ & Km & Ka & _).
  assert (nativeOk w (kill id st).2 = nativeOk w st) as Kn
    by (unfold nativeOk, nativeTried; by rewrite Ka, Km).
  rewrite Kn in Hok. rewrite Hok in Hres, Hinst. rewrite Hres.
  destruct (nativeOk w st || negb (childSpawnThrows w)).
  - split; [reflexivity|].
    assert (map_get id (instances (restart w id newCwd shell agent st).2) =
            Some (withBuffer (outputBuffer instance, outputBufferSize instance)
                    (newInstance (nextHandle st) o (nativeOk w st)))) as Hnew
      by (rewrite Hinst; apply map_get_set_eq).
    split.
    + eexists. split; [exact Hnew|]. by repeat split.
    + unfold getOutputBuffer. by rewrite Hnew, Hreg.
  - split; [reflexivity|].
    unfold exists_, map_has. by rewrite Hinst, map_get_delete_eq.
Qed.

Lemma C2_restart_keeps_buffer_witness :
  let w := mkWorld "happy" "claude" "/bin/sh" false false in
  let st := run [OpCreate w (mkOptions "s1" "/tmp" terminal None None);
                 EvData "s1" (js "hi")] (initialState true true true) in
  (restart w "s1" "/home" None None st).1 = true /\
  getOutputBuffer "s1" (restart w "s1" "/home" None None st).2 = Some (js "hi").
Proof.
  intros w st.
  pose proof (C2_restart_keeps_buffer w "s1" "/home" None None st
                (mkInstance 0 terminal "/tmp" true [js "hi"] 2) eq_refl) as H.
  change (nativeOk w st || negb (childSpawnThrows w)) with true in H.
  cbv zeta iota in H. destruct H as (Hok & _ & Hsnap).
  split; [exact Hok|]. rewrite Hsnap. reflexivity.
Defined.

(** ** The piped path and its synthetic output *)

(** C10.  When [create] goes down the piped path and the spawn returns,
    the session is registered with an empty buffer, so [getOutputBuffer]
    gives the empty string; the notice went to the window alone (and only
    while [safeSend] lets messages through).  A child-process error event
    leaves the registry, hence every buffer, as it was; its text goes to
    the window alone. *)
Theorem C10_synthetic_output_not_buffered (w : World) (o : CreatePtyOptions) (st : State)
    (Hpiped : nativeOk w st = false) (Hspawn : childSpawnThrows w = false) :
  (create w o st).1 = true /\
  map_get (o_id o) (instances (create w o st).2) = Some (newInstance (nextHandle st) o false) /\
  getOutputBuffer (o_id o) (create w o st).2 = Some [] /\
  sent (create w o st).2 =
    sent st ++ (if live st then [PtyOutput (o_id o) degradedNotice] else []) /\
  (forall id message st',
     instances (onChildError id message st') = instances st' /\
     (forall id', getOutputBuffer id' (onChildError id message st') = getOutputBuffer id' st') /\
     sent (onChildError id message st') =
       sent st' ++ (if live st' then [PtyOutput id (errorText message)] else [])).
Proof.
  destruct (create_fields w o st) as (Hok & _ & _ & _ & _ & _ & _ & Hsent & _).
  rewrite Hpiped, Hspawn in Hok, Hsent. simpl in Hok, Hsent.
  pose proof (create_registers w o st Hok) as Hget. rewrite Hpiped in Hget.
  split; [exact Hok|]. split; [exact Hget|]. split; [|split; [exact Hsent|]].
  - unfold getOutputBuffer. rewrite Hget. reflexivity.
  - intros id message st'. unfold onChildError, safeSend, getOutputBuffer, live.
    destruct (negb (disposed st') && negb (windowDestroyed st')); simpl;
      rewrite ?app_nil_r; by repeat split.
Qed.

Lemma C10_synthetic_output_not_buffered_witness :
  getOutputBuffer "s1"
    (create (mkWorld "happy" "claude" "/bin/sh" false false)
       (mkOptions "s1" "/tmp" terminal None None)
       (initialState false false true)).2 = Some [].
Proof.
  apply (C10_synthetic_output_not_buffered
           (mkWorld "happy" "claude" "/bin/sh" false false)
           (mkOptions "s1" "/tmp" terminal None None)
           (initialState false false true)); reflexivity.
Defined.

(** ** The native flag *)

(** C3, as stated, fails on the code in its last part: once the manager was
    disposed, a [create] on the piped path still returns true, but nothing
    is delivered, the notice included. *)
Lemma C3_counterexample :
  let w := mkWorld "happy" "claude" "/bin/sh" true false in
  let st1 := (create w (mkOptions "s1" "/tmp" terminal None None)
                (initialState true true true)).2 in
  let st := run [OpDispose] st1 in
  let r := create w (mkOptions "s2" "/tmp" terminal None None) st in
  ptyAvailable st1 = false /\
  r.1 = true /\
  sent r.2 = sent st /\
  ~ (exists rest, sent r.2 = sent st ++ PtyOutput "s2" degradedNotice :: rest).
Proof.
  intros w st1 st r.
  assert (sent r.2 = sent st) as Hsent by reflexivity.
  split; [reflexivity | split; [reflexivity | split; [exact Hsent|]]].
  intros [rest Hrest]. rewrite Hsent in Hrest.
  apply (f_equal length) in Hrest. rewrite length_app in Hrest. simpl in Hrest. lia.
Qed.

(** C3 (amended).  A [create] whose native spawn throws puts the flag down;
    no later step puts it up again, and none calls [pty.spawn]; every later
    [create] takes the piped path and returns true unless the piped spawn
    throws, registering a piped session.  The notice is the one message
    that [create] hands to the window, ahead of any output of the new
    session; it is delivered when the manager is not disposed and the
    window not destroyed, and otherwise nothing is. *)
Theorem C3_native_off_for_good (w0 : World) (o0 : CreatePtyOptions) (st0 : State)
    (Htried : nativeTried st0 = true) (Hthrows : ptySpawnThrows w0 = true)
    (ops : list Op) (w : World) (o : CreatePtyOptions) :
  let st1 := (create w0 o0 st0).2 in
  let st := run ops st1 in
  let r := create w o st in
  ptyAvailable st1 = false /\
  ptyAvailable st = false /\
  ptyAvailable r.2 = false /\
  (exists calls,
     backend r.2 = backend st1 ++ calls /\
     Forall (fun c => isPtySpawn c = false) calls) /\
  r.1 = negb (childSpawnThrows w) /\
  (childSpawnThrows w = false ->
     map_get (o_id o) (instances r.2) = Some (newInstance (nextHandle st) o false)) /\
  sent r.2 =
    sent st ++ (if negb (childSpawnThrows w) && live st
                then [PtyOutput (o_id o) degradedNotice] else []).
Proof.
  intros st1 st r.
  assert (ptyAvailable st1 = false) as H1.
  { unfold st1. destruct (create_fields w0 o0 st0) as (_ & _ & _ & _ & -> & _).
    by rewrite Htried, Hthrows. }
  destruct (run_native_off ops st1 H1) as (H2 & c1 & Hb1 & Hc1). fold st in H2, Hb1.
  destruct (step_native_off (OpCreate w o) st H2) as (H3 & c2 & Hb2 & Hc2).
  change (step (OpCreate w o) st) with r.2 in H3, Hb2.
  assert (nativeOk w st = false) as Hno by (unfold nativeOk, nativeTried; by rewrite H2).
  destruct (create_fields w o st) as (Hok & _ & _ & _ & _ & _ & _ & Hsent & _).
  fold r in Hok, Hsent. rewrite Hno in Hok, Hsent. simpl in Hok, Hsent.
  split; [exact H1|]. split; [exact H2|]. split; [exact H3|]. split.
  { exists (c1 ++ c2). rewrite Hb2, Hb1, <- app_assoc. split; [reflexivity|].
    by apply Forall_app. }
  split; [exact Hok|]. split; [|exact Hsent].
  intros Hspawn. rewrite Hspawn in Hok.
  pose proof (create_registers w o st Hok) as Hget. by rewrite Hno in Hget.
Qed.

Lemma C3_native_off_for_good_witness :
  let w := mkWorld "happy" "claude" "/bin/sh" true false in
  let o := mkOptions "s1" "/tmp" terminal None None in
  ptyAvailable
    (run [OpKill "s1"; OpCreate w o] (create w o (initialState true true true)).2) = false.
Proof.
  intros w o.
  apply (C3_native_off_for_good w o (initialState true true true) eq_refl eq_refl
           [OpKill "s1"; OpCreate w o] w o).
Defined.

(** ** Shutdown *)

(** C4, as stated, fails on the code for the session-count notifications:
    with one session and an observer, [dispose] itself calls the observer
    (with count 0) after it has set the flag, and the exit callback of the
    killed process calls it once more. *)
Lemma C4_counterexample :
  let w := mkWorld "happy" "claude" "/bin/sh" false false in
  let st := run [OpCreate w (mkOptions "s1" "/tmp" terminal None None)]
              (initialState true true true) in
  counted st = [1] /\
  counted (dispose st) = [1; 0] /\
  counted (run [EvPtyExit "s1" 0] (dispose st)) = [1; 0; 0] /\
  ~ (forall (st : State) (ops : list Op),
       counted (run ops (dispose st)) = counted st).
Proof.
  intros w st. split; [reflexivity | split; [reflexivity | split; [reflexivity|]]].
  intros H. specialize (H st []). discriminate H.
Qed.

(** C4 (amended).  [dispose] sets the shutdown flag and kills every
    registered session, one kill call per session in registry order, and
    leaves the registry empty.  From then on, whatever happens, the flag
    stays set and no output or exit message reaches the window.  The
    session-count observer is not covered by the flag: when there is one,
    [dispose] calls it once per session killed, counting down to 0. *)
Theorem C4_dispose_shuts_down (st : State)
    (Hmap : NoDup (map_keys (instances st))) (ops : list Op) :
  disposed (dispose st) = true /\
  instances (dispose st) = [] /\
  (forall id, exists_ id (dispose st) = false) /\
  backend (dispose st) = backend st ++ map (fun kv => killCall kv.2) (instances st) /\
  sent (dispose st) = sent st /\
  counted (dispose st) =
    counted st ++ (if countObserver st then countdown (length (instances st)) else []) /\
  disposed (run ops (dispose st)) = true /\
  sent (run ops (dispose st)) = sent st.
Proof.
  rewrite dispose_unfold.
  destruct (killAll_fields (map_keys (instances st)) (setDisposed true st))
    as (_ & Hd & _ & _ & _ & _ & Hs & _).
  destruct (killAll_exact (instances st) (setDisposed true st) eq_refl Hmap)
    as (Hi & Hb & Hc).
  set (st' := killAll (map_keys (instances st)) (setDisposed true st)) in *.
  simpl in Hd, Hs, Hb, Hc.
  destruct (run_disposed ops st' Hd) as [Hd' Hs'].
  split; [exact Hd|]. split; [exact Hi|]. split.
  { intros id. unfold exists_, map_has. by rewrite Hi. }
  split; [exact Hb|]. split; [exact Hs|]. split; [exact Hc|].
  split; [exact Hd' | congruence].
Qed.

Lemma C4_dispose_shuts_down_witness :
  let w := mkWorld "happy" "claude" "/bin/sh" false false in
  let st := run [OpCreate w (mkOptions "s1" "/tmp" terminal None None)]
              (initialState true true true) in
  sent (run [EvData "s1" (js "late"); EvPtyExit "s1" 0] (dispose st)) = sent st.
Proof.
  intros w st.
  apply (C4_dispose_shuts_down st (NoDup_singleton "s1")
           [EvData "s1" (js "late"); EvPtyExit "s1" 0]).
Defined.

(** ** The restoration filter *)

Lemma stripPrefix_Some (p s r : jsstring) :
  stripPrefix p s = Some r <-> s = p ++ r.
Proof.
  revert s. induction p as [|a p IH]; intros s; simpl.
  - split; [by intros [= ->] | by intros ->].
  - destruct s as [|b s].
    + split; discriminate.
    + destruct (N.eqb_spec a b) as [->|Hne].
      * rewrite IH. split; [by intros -> | by intros [= ->]].
      * split; [discriminate | intros [= ? ?]; done].
Qed.

Lemma stripPrefix_app (p r : jsstring) : stripPrefix p (p ++ r) = Some r.
Proof. by apply stripPrefix_Some. Qed.

Lemma matchAt_Some (alts : list jsstring) (s r : jsstring) :
  matchAt alts s = Some r -> exists p, p ∈ alts /\ s = p ++ r.
Proof.
  induction alts as [|q alts IH]; simpl; [discriminate|].
  destruct (stripPrefix q s) as [r'|] eqn:E.
  - intros [= ->]. exists q. split; [left | by apply stripPrefix_Some].
  - intros Hm. destruct (IH Hm) as (p & Hp & Hs). exists p. split; [by right | exact Hs].
Qed.

Lemma matchAt_None (alts : list jsstring) (s : jsstring) :
  matchAt alts s = None <-> forall p r, p ∈ alts -> s <> p ++ r.
Proof.
  induction alts as [|q alts IH]; simpl.
  - split; [intros _ p r Hp; by apply elem_of_nil in Hp | done].
  - destruct (stripPrefix q s) as [r'|] eqn:E.
    + split; [discriminate|]. intros H. exfalso.
      apply (H q r'); [left | by apply stripPrefix_Some].
    + rewrite IH. split.
      * intros H p r Hp. apply elem_of_cons in Hp as [->|Hp]; [|by apply H].
        intros Hs. apply stripPrefix_Some in Hs. congruence.
      * intros H p r Hp. apply H. by right.
Qed.

Lemma escLed_nonempty (alts : list jsstring) (p : jsstring) :
  Forall escLed alts -> p ∈ alts -> exists tail, p = ESC :: tail /\ escFree tail.
Proof. intros Hall Hp. rewrite Forall_forall in Hall. exact (Hall p Hp). Qed.

(** A match is never empty, so [length s] steps of the scan are enough. *)
Lemma removeAllFuel_enough (alts : list jsstring) :
  Forall escLed alts ->
  forall fuel s, (length s <= fuel)%nat ->
    removeAllFuel fuel alts s = removeAllFuel (length s) alts s.
Proof.
  intros Hall fuel. induction fuel as [fuel IH] using lt_wf_ind. intros s Hlen.
  destruct s as [|c rest]; [by destruct fuel|].
  destruct fuel as [|fuel]; [simpl in Hlen; lia|].
  simpl. destruct (matchAt alts (c :: rest)) as [after|] eqn:E.
  - apply matchAt_Some in E as (p & Hp & Hs).
    destruct (escLed_nonempty alts p Hall Hp) as (tail & -> & _).
    injection Hs as -> ->. simpl in Hlen. rewrite length_app in Hlen.
    rewrite (IH fuel) by (rewrite ?length_app; lia).
    rewrite (IH (length (tail ++ after))) by (rewrite ?length_app; lia).
    reflexivity.
  - f_equal. simpl in Hlen. rewrite (IH fuel) by lia. reflexivity.
Qed.

Lemma removeAll_nil (alts : list jsstring) : removeAll alts [] = [].
Proof. reflexivity. Qed.

(** The scan, one step at a time. *)
Lemma removeAll_cons (alts : list jsstring) (c : code_unit) (rest : jsstring) :
  Forall escLed alts ->
  removeAll alts (c :: rest) =
  match matchAt alts (c :: rest) with
  | Some after => removeAll alts after
  | None => c :: removeAll alts rest
  end.
Proof.
  intros Hall. unfold removeAll. simpl.
  destruct (matchAt alts (c :: rest)) as [after|] eqn:E; [|reflexivity].
  apply removeAllFuel_enough; [exact Hall|].
  apply matchAt_Some in E as (p & Hp & Hs).
  destruct (escLed_nonempty alts p Hall Hp) as (tail & -> & _).
  injection Hs as -> ->. rewrite length_app. lia.
Qed.

(** What a scan returns is what it was given with parts left out. *)
Lemma removeAll_sublist (alts : list jsstring) (s : jsstring) :
  Forall escLed alts -> removeAll alts s `sublist_of` s.
Proof.
  intros Hall. remember (length s) as n eqn:Hn. revert s Hn.
  induction n as [n IH] using lt_wf_ind. intros s ->.
  destruct s as [|c rest]; [by rewrite removeAll_nil|].
  rewrite removeAll_cons by done.
  destruct (matchAt alts (c :: rest)) as [after|] eqn:E.
  - apply matchAt_Some in E as (p & Hp & Hs). rewrite Hs.
    destruct (escLed_nonempty alts p Hall Hp) as (tail & -> & _).
    apply sublist_inserts_l. apply (IH (length after)); [|reflexivity].
    injection Hs as -> ->. simpl. rewrite length_app. lia.
  - apply sublist_skip. apply (IH (length rest)); [|reflexivity]. simpl. lia.
Qed.

(** No match starts at a unit that is not ESC. *)
Lemma matchAt_not_esc (alts : list jsstring) (c : code_unit) (s : jsstring) :
  Forall escLed alts -> c <> ESC -> matchAt alts (c :: s) = None.
Proof.
  intros Hall Hc. apply matchAt_None. intros p r Hp Hs.
  destruct (escLed_nonempty alts p Hall Hp) as (tail & -> & _).
  by injection Hs as -> _.
Qed.

Lemma removeAll_escFree_app (alts : list jsstring) (t s : jsstring) :
  Forall escLed alts -> escFree t ->
  removeAll alts (t ++ s) = t ++ removeAll alts s.
Proof.
  intros Hall Ht. induction Ht as [|c t Hc Ht IH]; [reflexivity|].
  simpl. rewrite removeAll_cons, matchAt_not_esc by done. by rewrite IH.
Qed.

Lemma stripPrefix_escFree_boundary (t u s : jsstring) :
  escFree t -> escStart s ->
  stripPrefix t (u ++ s) = (fun after => after ++ s) <$> stripPrefix t u.
Proof.
  intros Ht Hs. revert u. induction Ht as [|a t Ha Ht IH]; intros u; [reflexivity|].
  destruct u as [|b u]; simpl.
  - destruct Hs as [->|[s' ->]]; [reflexivity|].
    destruct (N.eqb_spec a ESC); [done | reflexivity].
  - destruct (N.eqb a b); [apply IH | reflexivity].
Qed.

Lemma matchAt_boundary (alts : list jsstring) (c : code_unit) (u s : jsstring) :
  Forall escLed alts -> escStart s ->
  matchAt alts ((c :: u) ++ s) = (fun after => after ++ s) <$> matchAt alts (c :: u).
Proof.
  intros Hall Hs. induction Hall as [|q alts (tail & -> & Htail) Hall IH]; [reflexivity|].
  cbn [matchAt]. change ((c :: u) ++ s) with (c :: (u ++ s)) in *. cbn [stripPrefix].
  destruct (N.eqb ESC c).
  - rewrite stripPrefix_escFree_boundary by done.
    destruct (stripPrefix tail u); [reflexivity | exact IH].
  - exact IH.
Qed.

(** A scan does not see across a point where an ESC stands: a match that
    started before it would have to contain that ESC. *)
Lemma removeAll_app_esc (alts : list jsstring) (u s : jsstring) :
  Forall escLed alts -> escStart s ->
  removeAll alts (u ++ s) = removeAll alts u ++ removeAll alts s.
Proof.
  intros Hall Hs. remember (length u) as n eqn:Hn. revert u Hn.
  induction n as [n IH] using lt_wf_ind. intros u ->.
  destruct u as [|c u]; [reflexivity|].
  change ((c :: u) ++ s) with (c :: (u ++ s)).
  rewrite !removeAll_cons by done.
  change (c :: (u ++ s)) with ((c :: u) ++ s).
  rewrite matchAt_boundary by done.
  destruct (matchAt alts (c :: u)) as [after|] eqn:E; simpl.
  - apply matchAt_Some in E as (p & Hp & Hu).
    destruct (escLed_nonempty alts p Hall Hp) as (tail & -> & _).
    injection Hu as -> ->. apply (IH (length after)); [|reflexivity].
    simpl. rewrite length_app. lia.
  - f_equal. apply (IH (length u)); [|reflexivity]. simpl. lia.
Qed.

(** *** The designated sequences *)

Lemma designated_escLed : Forall escLed designated.
Proof.
  repeat constructor; (eexists; split; [reflexivity|]);
    vm_compute; repeat constructor; discriminate.
Qed.

Lemma subset_escLed (alts : list jsstring) :
  alts ⊆ designated -> Forall escLed alts.
Proof.
  intros Hsub. apply Forall_forall. intros p Hp.
  pose proof designated_escLed as Hall. rewrite Forall_forall in Hall.
  apply Hall, Hsub, Hp.
Qed.

Ltac in_list := solve [repeat first [left | right]].

Ltac not_in_list :=
  let H := fresh in
  intros H; repeat (apply elem_of_cons in H as [H|H]);
  solve [by apply elem_of_nil in H | vm_compute in H; discriminate H].

Ltac each_designated H :=
  unfold designated in H;
  repeat (apply elem_of_cons in H as [->|H]);
  [ .. | by apply elem_of_nil in H].

(** No designated sequence is the start of another: at the head of a
    designated sequence only that sequence matches. *)
Lemma stripPrefix_designated (p q x : jsstring) :
  p ∈ designated -> q ∈ designated ->
  stripPrefix q (p ++ x) = if decide (q = p) then Some x else None.
Proof.
  intros Hp Hq. each_designated Hp; each_designated Hq;
    (destruct (decide _) as [Heq|Hne];
     [try discriminate Heq; apply stripPrefix_app
     | try (exfalso; by apply Hne); reflexivity]).
Qed.

Lemma matchAt_designated (alts : list jsstring) (p x : jsstring) :
  alts ⊆ designated -> p ∈ designated ->
  matchAt alts (p ++ x) = if decide (p ∈ alts) then Some x else None.
Proof.
  intros Hsub Hp. induction alts as [|q alts IH]; simpl.
  - destruct (decide (p ∈ [])) as [Hin|]; [by apply elem_of_nil in Hin | reflexivity].
  - rewrite stripPrefix_designated by (done || apply Hsub; left).
    destruct (decide (q = p)) as [->|Hne].
    + rewrite decide_True by left. reflexivity.
    + rewrite IH by (intros y Hy; apply Hsub; by right).
      destruct (decide (p ∈ alts)) as [Hin|Hnin].
      * rewrite decide_True by (by right). reflexivity.
      * rewrite decide_False; [reflexivity|].
        intros Hin. apply elem_of_cons in Hin as [->|Hin]; done.
Qed.

(** A pass removes a sequence it looks for ... *)
Lemma removeAll_seq_drop (alts : list jsstring) (p x : jsstring) :
  alts ⊆ designated -> p ∈ alts ->
  removeAll alts (p ++ x) = removeAll alts x.
Proof.
  intros Hsub Hp.
  destruct (escLed_nonempty alts p (subset_escLed alts Hsub) Hp) as (tail & Heq & _).
  pose proof (matchAt_designated alts p x Hsub (Hsub p Hp)) as Hm.
  rewrite decide_True in Hm by done. rewrite Heq in Hm |- *.
  change ((ESC :: tail) ++ x) with (ESC :: (tail ++ x)) in *.
  rewrite removeAll_cons by (by apply subset_escLed). by rewrite Hm.
Qed.

(** ... and copies a designated sequence it does not look for. *)
Lemma removeAll_seq_keep (alts : list jsstring) (p x : jsstring) :
  alts ⊆ designated -> p ∈ designated -> p ∉ alts ->
  removeAll alts (p ++ x) = p ++ removeAll alts x.
Proof.
  intros Hsub Hp Hnot.
  destruct (escLed_nonempty designated p designated_escLed Hp) as (tail & Heq & Htail).
  pose proof (matchAt_designated alts p x Hsub Hp) as Hm.
  rewrite decide_False in Hm by done. rewrite Heq in Hm |- *.
  change ((ESC :: tail) ++ x) with (ESC :: (tail ++ x)) in *.
  rewrite removeAll_cons by (by apply subset_escLed). rewrite Hm.
  rewrite removeAll_escFree_app by (done || by apply subset_escLed). reflexivity.
Qed.

Lemma escStart_designated (p x : jsstring) : p ∈ designated -> escStart (p ++ x).
Proof.
  intros Hp. destruct (escLed_nonempty designated p designated_escLed Hp) as (tail & -> & _).
  right. by eexists.
Qed.

(** One pass over a string with a designated sequence in it. *)
Lemma removeAll_around_drop (alts : list jsstring) (u p v : jsstring) :
  alts ⊆ designated -> p ∈ alts ->
  removeAll alts (u ++ p ++ v) = removeAll alts u ++ removeAll alts v.
Proof.
  intros Hsub Hp.
  rewrite removeAll_app_esc by (by apply subset_escLed || by apply escStart_designated, Hsub).
  by rewrite removeAll_seq_drop.
Qed.

Lemma removeAll_around_keep (alts : list jsstring) (u p v : jsstring) :
  alts ⊆ designated -> p ∈ designated -> p ∉ alts ->
  removeAll alts (u ++ p ++ v) = removeAll alts u ++ p ++ removeAll alts v.
Proof.
  intros Hsub Hp Hnot.
  rewrite removeAll_app_esc by (by apply subset_escLed || by apply escStart_designated).
  by rewrite removeAll_seq_keep.
Qed.

(** The alternatives of the five passes. *)
Lemma pass_subsets :
  [clearScreen] ⊆ designated /\
  [clearScrollback] ⊆ designated /\
  [cursorHome] ⊆ designated /\
  [altScreenOn; altScreenOff] ⊆ designated /\
  [resetTerminal] ⊆ designated.
Proof.
  unfold designated. repeat split; intros x Hx;
    repeat (apply elem_of_cons in Hx as [->|Hx]);
    try (by apply elem_of_nil in Hx); in_list.
Qed.

Lemma filter_sublist (s : jsstring) : filterClearScreenCodes s `sublist_of` s.
Proof.
  destruct pass_subsets as (H1 & H2 & H3 & H4 & H5). unfold filterClearScreenCodes.
  repeat (etrans; [apply removeAll_sublist; by apply subset_escLed|]). reflexivity.
Qed.

(** Every occurrence of a designated sequence in the input is removed:
    what comes out is made of units before it and units after it. *)
Lemma filter_removes_occurrence (u p v : jsstring) :
  p ∈ designated ->
  filterClearScreenCodes (u ++ p ++ v) `sublist_of` u ++ v.
Proof.
  intros Hp. destruct pass_subsets as (H1 & H2 & H3 & H4 & H5).
  assert (forall alts x, alts ⊆ designated -> removeAll alts x `sublist_of` x) as Hsl
    by (intros; by apply removeAll_sublist, subset_escLed).
  unfold filterClearScreenCodes.
  each_designated Hp.
  all: repeat first
    [ rewrite removeAll_around_drop by (done || in_list)
    | rewrite removeAll_around_keep
        by (done || (unfold designated; in_list) || not_in_list) ].
  all: repeat (etrans; [by apply Hsl|]).
  all: apply sublist_app; repeat (etrans; [by apply Hsl|]); reflexivity.
Qed.

(** *** Reading a string as sequences and units *)

Lemma flatten_cons (t : token) (toks : list token) :
  flatten (t :: toks) = tokenText t ++ flatten toks.
Proof. reflexivity. Qed.

Lemma scan_exists (s : jsstring) :
  exists toks, Scanned toks /\ flatten toks = s.
Proof.
  remember (length s) as n eqn:Hn. revert s Hn.
  induction n as [n IH] using lt_wf_ind. intros s ->.
  destruct s as [|c rest]; [exists []; split; [constructor | reflexivity]|].
  destruct (matchAt designated (c :: rest)) as [after|] eqn:E.
  - apply matchAt_Some in E as (p & Hp & Hs).
    destruct (escLed_nonempty designated p designated_escLed Hp) as (tail & Heq & _).
    destruct (IH (length after)) with (s := after) as (toks & Hscan & Hflat); [|reflexivity|].
    { rewrite Hs, Heq. simpl. rewrite length_app. lia. }
    exists (Seq p :: toks). split; [by constructor|].
    rewrite flatten_cons, Hflat, Hs. reflexivity.
  - destruct (IH (length rest)) with (s := rest) as (toks & Hscan & Hflat);
      [simpl; lia | reflexivity |].
    exists (Unit c :: toks). split; [constructor; [by rewrite Hflat | exact Hscan]|].
    rewrite flatten_cons, Hflat. reflexivity.
Qed.

Lemma Scanned_seqsDesignated (toks : list token) : Scanned toks -> seqsDesignated toks.
Proof. induction 1; by constructor. Qed.

(** The one-scan filter keeps exactly the units of the reading. *)
Lemma removeDesignated_scanned (toks : list token) :
  Scanned toks -> removeDesignated (flatten toks) = units toks.
Proof.
  unfold removeDesignated. induction 1 as [|p toks Hp Hscan IH|c toks Hm Hscan IH].
  - reflexivity.
  - rewrite flatten_cons. simpl. by rewrite removeAll_seq_drop.
  - rewrite flatten_cons. simpl.
    rewrite removeAll_cons, Hm by exact designated_escLed. by rewrite IH.
Qed.

Lemma escFree_before_esc (tail F u x : jsstring) :
  escFree tail -> tail ++ F = u ++ ESC :: x ->
  exists u', u = tail ++ u' /\ F = u' ++ ESC :: x.
Proof.
  intros Ht. revert u. induction Ht as [|a t Ha Ht IH]; intros u Heq.
  - by exists u.
  - destruct u as [|b u]; simpl in Heq.
    + by injection Heq as -> _.
    + injection Heq as -> Heq. destruct (IH u Heq) as (u' & -> & ->). by exists u'.
Qed.

(** The sequence tokens of the reading are exactly the occurrences of the
    designated sequences: wherever one occurs in the text, the reading has
    that very token there. *)
Lemma scanned_occurrence (toks : list token) (u p v : jsstring) :
  Scanned toks -> p ∈ designated -> flatten toks = u ++ p ++ v ->
  exists before after,
    toks = before ++ Seq p :: after /\ flatten before = u /\ flatten after = v.
Proof.
  intros Hscan Hp. revert u.
  destruct (escLed_nonempty designated p designated_escLed Hp) as (ptail & Hpeq & _).
  induction Hscan as [|q toks Hq Hscan IH|c toks Hm Hscan IH]; intros u Hflat.
  - rewrite Hpeq in Hflat. by destruct u.
  - rewrite flatten_cons in Hflat. simpl in Hflat. destruct u as [|c u].
    + simpl in Hflat.
      pose proof (stripPrefix_designated p q v Hp Hq) as Hstrip.
      assert (stripPrefix q (p ++ v) = Some (flatten toks)) as Hsome
        by (apply stripPrefix_Some; by symmetry).
      rewrite Hsome in Hstrip.
      destruct (decide (q = p)) as [->|]; [|discriminate].
      injection Hstrip as Hv. exists [], toks. by repeat split.
    + destruct (escLed_nonempty designated q designated_escLed Hq) as (qtail & -> & Hqtail).
      simpl in Hflat. injection Hflat as <- Hflat.
      rewrite Hpeq in Hflat. simpl in Hflat.
      destruct (escFree_before_esc qtail _ u _ Hqtail Hflat) as (u' & -> & Hrest).
      destruct (IH u') as (before & after & -> & <- & <-);
        [by rewrite Hpeq|].
      exists (Seq (ESC :: qtail) :: before), after. by repeat split.
  - rewrite flatten_cons in Hflat. simpl in Hflat. destruct u as [|c' u].
    + exfalso. simpl in Hflat. rewrite Hflat in Hm.
      pose proof (matchAt_designated designated p v (fun _ H => H) Hp) as Hm'.
      rewrite decide_True in Hm' by done. congruence.
    + simpl in Hflat. injection Hflat as <- Hflat.
      destruct (IH u Hflat) as (before & after & -> & <- & <-).
      exists (Unit c :: before), after. by repeat split.
Qed.

Lemma units_dropSeqs (alts : list jsstring) (toks : list token) :
  units (dropSeqs alts toks) = units toks.
Proof.
  induction toks as [|[p|c] toks IH]; simpl; [reflexivity| |by rewrite IH].
  destruct (decide (p ∈ alts)); simpl; exact IH.
Qed.

Lemma seqsDesignated_dropSeqs (alts : list jsstring) (toks : list token) :
  seqsDesignated toks -> seqsDesignated (dropSeqs alts toks).
Proof.
  induction 1 as [|[p|c] toks Ht Htoks IH]; simpl; [constructor| |by constructor].
  destruct (decide (p ∈ alts)); [exact IH | by constructor].
Qed.

(** Units that are not ESC and stand at the start of the text stand at the
    start of the units too: a sequence token would bring an ESC. *)
Lemma escFree_prefix_units (t x : jsstring) (toks : list token) :
  escFree t -> seqsDesignated toks -> flatten toks = t ++ x ->
  exists y, units toks = t ++ y.
Proof.
  intros Ht. revert toks. induction Ht as [|a t Ha Ht IH]; intros toks Hwf Hflat.
  - by eexists.
  - destruct Hwf as [|[p|c] toks Hp Hwf].
    + discriminate Hflat.
    + destruct (escLed_nonempty designated p designated_escLed Hp) as (tail & -> & _).
      rewrite flatten_cons in Hflat. simpl in Hflat. by injection Hflat as <- _.
    + rewrite flatten_cons in Hflat. simpl in Hflat. injection Hflat as -> Hflat.
      destruct (IH toks Hwf Hflat) as [y Hy]. exists y. simpl. by rewrite Hy.
Qed.

Lemma freeOfDesignated_tail (c : code_unit) (s : jsstring) :
  freeOfDesignated (c :: s) -> freeOfDesignated s.
Proof.
  intros H p Hp (u & v & ->). apply (H p Hp). by exists (c :: u), v.
Qed.

(** Where the units alone hold no designated sequence, no pass finds a
    match at a unit. *)
Lemma unit_no_match (alts : list jsstring) (c : code_unit) (toks : list token) :
  alts ⊆ designated -> seqsDesignated toks ->
  freeOfDesignated (c :: units toks) ->
  matchAt alts (c :: flatten toks) = None.
Proof.
  intros Hsub Hwf Hfree. apply matchAt_None. intros q r Hq Hs.
  destruct (escLed_nonempty designated q designated_escLed (Hsub q Hq))
    as (tail & -> & Htail).
  injection Hs as -> Hflat.
  destruct (escFree_prefix_units tail r toks Htail Hwf Hflat) as [y Hy].
  apply (Hfree (ESC :: tail) (Hsub _ Hq)). exists [], y. simpl. by rewrite Hy.
Qed.

(** One pass, on the reading. *)
Lemma removeAll_tokens (alts : list jsstring) (toks : list token) :
  alts ⊆ designated -> seqsDesignated toks -> freeOfDesignated (units toks) ->
  removeAll alts (flatten toks) = flatten (dropSeqs alts toks).
Proof.
  intros Hsub Hwf. induction Hwf as [|[p|c] toks Hp Hwf IH]; intros Hfree.
  - reflexivity.
  - rewrite flatten_cons. simpl. destruct (decide (p ∈ alts)) as [Hin|Hnin].
    + rewrite removeAll_seq_drop by done. by apply IH.
    + rewrite removeAll_seq_keep by done. rewrite flatten_cons. simpl.
      f_equal. by apply IH.
  - rewrite flatten_cons. simpl in *.
    rewrite removeAll_cons by (by apply subset_escLed).
    change (c :: flatten toks) with ([c] ++ flatten toks).
    simpl. rewrite unit_no_match by done.
    rewrite flatten_cons. simpl. f_equal. apply IH. by eapply freeOfDesignated_tail.
Qed.

(** The five passes together remove every sequence token. *)
Lemma flatten_dropAllSeqs (toks : list token) :
  seqsDesignated toks -> flatten (dropAllSeqs toks) = units toks.
Proof.
  unfold dropAllSeqs.
  induction 1 as [|[p|c] toks Hp Hwf IH]; [reflexivity| |].
  - cbn [units]. rewrite <- IH. each_designated Hp.
    all: cbn [dropSeqs].
    all: repeat first
      [ rewrite decide_True by in_list
      | rewrite decide_False by not_in_list
      | progress cbn [dropSeqs] ].
    all: reflexivity.
  - cbn [dropSeqs units]. rewrite flatten_cons. simpl. by rewrite IH.
Qed.

(** Where removing the designated sequences leaves a string that holds
    none, the five passes do what one scan does. *)
Lemma filter_is_removeDesignated (s : jsstring) :
  freeOfDesignated (removeDesignated s) ->
  filterClearScreenCodes s = removeDesignated s.
Proof.
  destruct (scan_exists s) as (toks & Hscan & <-).
  rewrite removeDesignated_scanned by done. intros Hfree.
  pose proof (Scanned_seqsDesignated toks Hscan) as Hwf.
  destruct pass_subsets as (H1 & H2 & H3 & H4 & H5).
  unfold filterClearScreenCodes.
  repeat (rewrite removeAll_tokens;
          [ | done | repeat apply seqsDesignated_dropSeqs; exact Hwf
            | rewrite ?units_dropSeqs; exact Hfree ]).
  by apply flatten_dropAllSeqs.
Qed.

Lemma removeDesignated_free (s : jsstring) :
  freeOfDesignated s -> removeDesignated s = s.
Proof.
  unfold removeDesignated. induction s as [|c s IH]; intros Hfree; [reflexivity|].
  rewrite removeAll_cons by exact designated_escLed.
  destruct (matchAt designated (c :: s)) as [after|] eqn:E.
  - apply matchAt_Some in E as (p & Hp & Hs). exfalso.
    apply (Hfree p Hp). exists [], after. exact Hs.
  - f_equal. apply IH. by eapply freeOfDesignated_tail.
Qed.

(** A data callback for a registered id puts the chunk, as it came, through
    [pushOutput] on that session's buffer and hands the same chunk to
    [safeSend]. *)
Lemma onData_registered (id : string) (data : jsstring) (st : State) (i : PtyInstance) :
  map_get id (instances st) = Some i ->
  map_get id (instances (onData id data st)) =
    Some (withBuffer (pushOutput data (bufferOf i)) i) /\
  sent (onData id data st) = sent st ++ (if live st then [PtyOutput id data] else []).
Proof.
  intros Hget. unfold onData, safeSend, live. rewrite Hget.
  destruct st as [insts disp pmod pav obs wdead snt cnt bk nh]. cbn in Hget |- *.
  destruct disp, wdead; cbn; rewrite ?app_nil_r; (split; [apply map_get_set_eq | reflexivity]).
Qed.

(** The passes run in a fixed order, so a sequence put together by a later
    pass stays: here the reset is taken out last and leaves ESC[2J. *)
Example filter_output_may_hold_sequence :
  filterClearScreenCodes (ESC :: js "[2" ++ resetTerminal ++ js "J") = clearScreen.
Proof. reflexivity. Qed.

(** C6, as stated, fails on the code: in ESC ESC[2J c the one designated
    sequence is ESC[2J; taking it out leaves ESC c, but the filter returns
    the empty string, because its first pass joins the ESC before and the
    c after into a reset sequence that its last pass removes. *)
Lemma C6_counterexample :
  let s := [ESC] ++ clearScreen ++ js "c" in
  removeDesignated s = ESC :: js "c" /\
  filterClearScreenCodes s = [] /\
  ~ (forall s, filterClearScreenCodes s = removeDesignated s).
Proof.
  intros s. split; [reflexivity | split; [reflexivity|]].
  intros H. specialize (H s). discriminate H.
Qed.

(** C6 (amended).  The filter makes five passes, one per expression.  What
    it returns is its input with code units left out, the rest unchanged
    and in order; every occurrence of a designated sequence in the input
    is left out; and where removing those occurrences leaves a string that
    holds no designated sequence (so in particular on an input that holds
    none, partial sequences included) it returns exactly the input without
    them.  [getOutputBuffer] is the filter applied to the joined chunks and
    changes nothing; a data callback stores the chunk and forwards it as
    it came. *)
Theorem C6_restoration_filter (s : jsstring) :
  filterClearScreenCodes s `sublist_of` s /\
  (forall u p v, p ∈ designated -> s = u ++ p ++ v ->
     filterClearScreenCodes s `sublist_of` u ++ v) /\
  (freeOfDesignated (removeDesignated s) ->
     filterClearScreenCodes s = removeDesignated s) /\
  (freeOfDesignated s -> filterClearScreenCodes s = s) /\
  (forall id st,
     getOutputBuffer id st =
       (fun i => filterClearScreenCodes (join (outputBuffer i))) <$> map_get id (instances st)) /\
  (forall id data st i,
     map_get id (instances st) = Some i ->
     (exists kept,
        map_get id (instances (onData id data st)) =
          Some (withBuffer (pushOutput data (bufferOf i)) i) /\
        (pushOutput data (bufferOf i)).1 = kept ++ [data]) /\
     sent (onData id data st) = sent st ++ (if live st then [PtyOutput id data] else [])).
Proof.
  split; [apply filter_sublist|].
  split; [intros u p v Hp ->; by apply filter_removes_occurrence|].
  split; [apply filter_is_removeDesignated|].
  split.
  { intros Hfree. pose proof (removeDesignated_free s Hfree) as Hid.
    rewrite filter_is_removeDesignated; rewrite Hid; done. }
  split.
  { intros id st. unfold getOutputBuffer. by destruct (map_get id (instances st)). }
  intros id data st i Hget. destruct (onData_registered id data st i Hget) as [Hi Hs].
  destruct (pushOutput_keeps_last data (bufferOf i)) as [kept Hkept].
  split; [by exists kept | exact Hs].
Qed.

Lemma C6_restoration_filter_witness :
  filterClearScreenCodes (js "hi" ++ clearScreen ++ js "!") = js "hi!" /\
  filterClearScreenCodes (js "a" ++ ESC :: js "[2") = js "a" ++ ESC :: js "[2".
Proof.
  split.
  - destruct (C6_restoration_filter (js "hi" ++ clearScreen ++ js "!"))
      as (_ & _ & H & _).
    rewrite H; [reflexivity|].
    intros p Hp (u & v & Heq). vm_compute in Heq.
    each_designated Hp; vm_compute in Heq;
      repeat (destruct u as [|? u]; try discriminate Heq).
  - destruct (C6_restoration_filter (js "a" ++ ESC :: js "[2")) as (_ & _ & _ & H & _).
    apply H.
    intros p Hp (u & v & Heq). vm_compute in Heq.
    each_designated Hp; vm_compute in Heq;
      repeat (destruct u as [|? u]; try discriminate Heq).
Defined.

(** * More of the manager *)

(** ** create, kill and the exit callback *)

Lemma map_size_set_present (k : string) (v : PtyInstance) (m : list (string * PtyInstance)) :
  map_has k m = true -> map_size (map_set k v m) = map_size m.
Proof.
  unfold map_has, map_size. induction m as [|[k' v'] m IH]; simpl; [discriminate|].
  destruct (decide (k = k')) as [->|Hne]; simpl; [reflexivity|].
  intros H. specialize (IH H). lia.
Qed.

Lemma map_size_set_any (k : string) (v v' : PtyInstance) (m : list (string * PtyInstance)) :
  map_size (map_set k v m) = map_size (map_set k v' m).
Proof.
  unfold map_size. f_equal. induction m as [|[k0 v0] m IH]; simpl; [reflexivity|].
  destruct (decide (k = k0)); simpl; [reflexivity | by rewrite IH].
Qed.

(** X1.  A [create] that returns true leaves the id registered: [exists] is
    true, [getCwd] is the cwd that was passed, the buffer is empty, the
    session is of the kind asked for and runs on the native backend exactly
    when the native spawn was tried and returned; no other id is touched. *)
Theorem create_success_registers (w : World) (o : CreatePtyOptions) (st : State)
    (Hok : (create w o st).1 = true) :
  exists_ (o_id o) (create w o st).2 = true /\
  getCwd (o_id o) (create w o st).2 = Some (o_cwd o) /\
  getOutputBuffer (o_id o) (create w o st).2 = Some [] /\
  (exists i, map_get (o_id o) (instances (create w o st).2) = Some i /\
             type i = o_type o /\ usePty i = nativeOk w st) /\
  (forall id', id' <> o_id o ->
     map_get id' (instances (create w o st).2) = map_get id' (instances st)).
Proof.
  pose proof (create_registers w o st Hok) as Hget.
  destruct (create_fields w o st) as (_ & Hinst & _).
  unfold exists_, map_has, getCwd, getOutputBuffer. rewrite Hget.
  split; [reflexivity|]. split; [reflexivity|]. split; [reflexivity|].
  split; [by eexists|].
  intros id' Hne. rewrite Hinst, Hok. by apply map_get_set_ne.
Qed.

Lemma create_success_registers_witness :
  getCwd "s1"
    (create (mkWorld "happy" "claude" "/bin/sh" false false)
       (mkOptions "s1" "/tmp" terminal None None)
       (initialState true true true)).2 = Some "/tmp".
Proof.
  apply (create_success_registers
           (mkWorld "happy" "claude" "/bin/sh" false false)
           (mkOptions "s1" "/tmp" terminal None None)
           (initialState true true true)).
  reflexivity.
Defined.

(** X2.  [create] returns false exactly when the piped spawn throws and the
    native spawn was not tried or threw as well; then the registry, the
    window and the observer are as they were. *)
Theorem create_fails_only_when_both_fail (w : World) (o : CreatePtyOptions) (st : State) :
  ((create w o st).1 = false <->
   nativeOk w st = false /\ childSpawnThrows w = true) /\
  ((create w o st).1 = false ->
   instances (create w o st).2 = instances st /\
   sent (create w o st).2 = sent st /\
   counted (create w o st).2 = counted st /\
   disposed (create w o st).2 = disposed st).
Proof.
  destruct (create_fields w o st) as (Hok & Hinst & Hd & _ & _ & _ & _ & Hs & Hc & _).
  split.
  - rewrite Hok. destruct (nativeOk w st), (childSpawnThrows w); simpl; intuition congruence.
  - intros Hf. rewrite Hinst, Hs, Hc, Hd, Hf. rewrite Hf in Hok. simpl.
    destruct (nativeOk w st), (childSpawnThrows w); try discriminate Hok.
    simpl. by rewrite !app_nil_r.
Qed.

Lemma create_fails_only_when_both_fail_witness :
  instances
    (create (mkWorld "happy" "claude" "/bin/sh" true true)
       (mkOptions "s1" "/tmp" terminal None None)
       (initialState true true true)).2 = [].
Proof.
  apply (create_fails_only_when_both_fail
           (mkWorld "happy" "claude" "/bin/sh" true true)
           (mkOptions "s1" "/tmp" terminal None None)
           (initialState true true true)).
  reflexivity.
Defined.

(** X3.  [kill] returns whether the id was registered; afterwards the id is
    not registered, every other id is as before, nothing was sent to the
    window, and the only backend call is the kill of that session's
    process (none when the id was unknown). *)
Theorem kill_unregisters (id : string) (st : State) :
  (kill id st).1 = exists_ id st /\
  exists_ id (kill id st).2 = false /\
  (forall id', id' <> id ->
     map_get id' (instances (kill id st).2) = map_get id' (instances st)) /\
  sent (kill id st).2 = sent st /\
  backend (kill id st).2 =
    backend st ++ (match map_get id (instances st) with
                   | Some i => [killCall i]
                   | None => []
                   end).
Proof.
  destruct (kill_fields id st) as (Hr & Hi & _ & _ & _ & _ & _ & Hs & _ & Hb).
  unfold exists_, map_has in *. rewrite Hi, map_get_delete_eq.
  split; [exact Hr|]. split; [reflexivity|]. split; [|by split].
  intros id' Hne. by apply map_get_delete_ne.
Qed.

(** X4.  The exit callback for [id] (of either backend; a null code of the
    child process counts as 0) unregisters whatever session is registered
    under [id]: the callback is keyed by the id, not by the process, so the
    exit of a process that [restart] replaced unregisters the new session.
    Other ids are untouched; the exit message goes to the window when
    [safeSend] lets it through; the observer is told the new size. *)
Theorem exit_unregisters_by_id (id : string) (exitCode : Z) (st : State) :
  exists_ id (onExit id exitCode st) = false /\
  (forall id', id' <> id ->
     map_get id' (instances (onExit id exitCode st)) = map_get id' (instances st)) /\
  sent (onExit id exitCode st) =
    sent st ++ (if live st then [PtyExit id exitCode] else []) /\
  counted (onExit id exitCode st) =
    counted st ++ (if countObserver st
                   then [map_size (map_delete id (instances st))] else []) /\
  backend (onExit id exitCode st) = backend st /\
  onChildExit id None st = onExit id 0 st /\
  (forall w newCwd shell agent,
     exists_ id (onExit id exitCode (restart w id newCwd shell agent st).2) = false).
Proof.
  assert (forall s, exists_ id (onExit id exitCode s) = false) as Hgone.
  { intros s. unfold exists_, map_has. by rewrite absent_after_exit. }
  split; [apply Hgone|]. split; [|split; [|split; [|split; [|split]]]].
  - intros id' Hne. unfold onExit, notifyTerminalCountChange, safeSend.
    repeat case_match; simpl; by apply map_get_delete_ne.
  - unfold onExit, notifyTerminalCountChange, safeSend, live.
    destruct st as [insts disp pmod pav obs wdead snt cnt bk nh]; simpl.
    destruct disp, wdead, obs; simpl; by rewrite ?app_nil_r.
  - unfold onExit, notifyTerminalCountChange, safeSend.
    destruct st as [insts disp pmod pav obs wdead snt cnt bk nh]; simpl.
    destruct disp, wdead, obs; simpl; by rewrite ?app_nil_r.
  - unfold onExit, notifyTerminalCountChange, safeSend.
    destruct st as [insts disp pmod pav obs wdead snt cnt bk nh]; simpl.
    by destruct disp, wdead, obs.
  - reflexivity.
  - intros. apply Hgone.
Qed.

(** ** Data callbacks *)

Lemma feed_nil (id : string) (st : State) : feed id [] st = st.
Proof. reflexivity. Qed.

Lemma feed_cons (id : string) (data : jsstring) (datas : list jsstring) (st : State) :
  feed id (data :: datas) st = feed id datas (onData id data st).
Proof. reflexivity. Qed.

Lemma onData_flags (id : string) (data : jsstring) (st : State) :
  live (onData id data st) = live st /\
  counted (onData id data st) = counted st /\
  backend (onData id data st) = backend st /\
  countObserver (onData id data st) = countObserver st.
Proof.
  unfold onData, safeSend, live.
  destruct (map_get id (instances st));
    destruct st as [insts disp pmod pav obs wdead snt cnt bk nh]; simpl;
    by destruct disp, wdead.
Qed.

Lemma onData_sent (id : string) (data : jsstring) (st : State) :
  sent (onData id data st) = sent st ++ (if live st then [PtyOutput id data] else []).
Proof.
  unfold onData, safeSend, live.
  destruct (map_get id (instances st));
    destruct st as [insts disp pmod pav obs wdead snt cnt bk nh]; simpl;
    destruct disp, wdead; simpl; by rewrite ?app_nil_r.
Qed.

Lemma onData_unregistered (id : string) (data : jsstring) (st : State) :
  map_get id (instances st) = None -> instances (onData id data st) = instances st.
Proof.
  intros Hget. unfold onData, safeSend. rewrite Hget. by case_match.
Qed.

Lemma onData_other (id id' : string) (data : jsstring) (st : State) :
  id' <> id -> map_get id' (instances (onData id data st)) = map_get id' (instances st).
Proof.
  intros Hne. destruct (map_get id (instances st)) as [i|] eqn:E.
  - unfold onData, safeSend. rewrite E. case_match; simpl; by apply map_get_set_ne.
  - by rewrite onData_unregistered.
Qed.

Lemma onData_exists (id id' : string) (data : jsstring) (st : State) :
  exists_ id' (onData id data st) = exists_ id' st.
Proof.
  unfold exists_, map_has. destruct (decide (id' = id)) as [->|Hne].
  - destruct (map_get id (instances st)) as [i|] eqn:E.
    + by destruct (onData_registered id data st i E) as [-> _].
    + by rewrite onData_unregistered, E.
  - by rewrite onData_other.
Qed.

(** X5.  A data callback never registers or unregisters a session and
    never touches the buffer of another id; it makes no backend call and
    does not call the observer.  When its id is not registered (output
    that arrives after [kill], say) the registry is unchanged and the
    chunk is still forwarded to the window. *)
Theorem data_callback_frame (id : string) (data : jsstring) (st : State) :
  (forall id', exists_ id' (onData id data st) = exists_ id' st) /\
  (forall id', id' <> id ->
     map_get id' (instances (onData id data st)) = map_get id' (instances st)) /\
  (map_get id (instances st) = None -> instances (onData id data st) = instances st) /\
  sent (onData id data st) = sent st ++ (if live st then [PtyOutput id data] else []) /\
  counted (onData id data st) = counted st /\
  backend (onData id data st) = backend st.
Proof.
  destruct (onData_flags id data st) as (_ & Hc & Hb & _).
  split; [|split; [intros id' Hne; by apply onData_other |
           split; [apply onData_unregistered | split; [apply onData_sent | by split]]]].
  intros id'. apply onData_exists.
Qed.

Lemma data_callback_frame_witness :
  instances (onData "gone" (js "late") (initialState true true true)) = [].
Proof.
  apply (data_callback_frame "gone" (js "late") (initialState true true true)).
  reflexivity.
Defined.

(** X6.  Every chunk is forwarded to the window as it came and in the
    order it came, whatever the buffer keeps of it and whether or not the
    id is registered (nothing is forwarded once [safeSend] is shut). *)
Theorem feed_forwards_in_order (id : string) (datas : list jsstring) (st : State) :
  sent (feed id datas st) =
    sent st ++ (if live st then map (PtyOutput id) datas else []) /\
  (forall id', exists_ id' (feed id datas st) = exists_ id' st).
Proof.
  revert st. induction datas as [|d datas IH]; intros st.
  - rewrite feed_nil. split; [|done]. destruct (live st); by rewrite app_nil_r.
  - rewrite feed_cons. destruct (IH (onData id d st)) as [Hs He].
    destruct (onData_flags id d st) as (Hl & _).
    rewrite Hs, onData_sent, Hl. split.
    + destruct (live st); simpl; by rewrite <- ?app_assoc, ?app_nil_r.
    + intros id'. by rewrite He, onData_exists.
Qed.

Lemma withBuffer_withBuffer (b b' : OutputBuffer) (i : PtyInstance) :
  withBuffer b (withBuffer b' i) = withBuffer b i.
Proof. reflexivity. Qed.

Lemma pushOutput_within (data : jsstring) (chunks : list jsstring) :
  totalLength chunks + jslength data <= 200000 ->
  pushOutput data (chunks, totalLength chunks) =
    (chunks ++ [data], totalLength (chunks ++ [data])).
Proof.
  intros Hle. rewrite pushOutput_unfold.
  replace (totalLength chunks + jslength data >? 200000) with false
    by (symmetry; rewrite Z.gtb_ltb; apply Z.ltb_ge; lia).
  rewrite totalLength_app, totalLength_cons, totalLength_nil. f_equal. lia.
Qed.

(** X7.  As long as the chunks of a session add up to at most 200000 code
    units nothing is dropped: after the data callbacks the buffer is the
    old chunks followed by the new ones, the tracked size is their sum, and
    [getOutputBuffer] is the filter applied to their concatenation. *)
Theorem feed_within_high_water (id : string) (datas : list jsstring)
    (st : State) (i : PtyInstance)
    (Hreg : map_get id (instances st) = Some i)
    (Hcons : outputBufferSize i = totalLength (outputBuffer i))
    (Hfits : totalLength (outputBuffer i) + totalLength datas <= 200000) :
  map_get id (instances (feed id datas st)) =
    Some (withBuffer (outputBuffer i ++ datas,
                      totalLength (outputBuffer i ++ datas)) i) /\
  getOutputBuffer id (feed id datas st) =
    Some (filterClearScreenCodes (join (outputBuffer i) ++ join datas)).
Proof.
  assert (map_get id (instances (feed id datas st)) =
          Some (withBuffer (outputBuffer i ++ datas,
                            totalLength (outputBuffer i ++ datas)) i)) as Hget.
  { revert st i Hreg Hcons Hfits. induction datas as [|d datas IH]; intros st i Hreg Hcons Hfits.
    - rewrite feed_nil, app_nil_r, Hreg. f_equal.
      destruct i; simpl in *. by rewrite Hcons.
    - rewrite feed_cons. rewrite totalLength_cons in Hfits.
      pose proof (jslength_nonneg d). pose proof (totalLength_nonneg datas).
      destruct (onData_registered id d st i Hreg) as [Hi _].
      unfold bufferOf in Hi. rewrite Hcons, pushOutput_within in Hi by lia.
      rewrite (IH _ _ Hi); simpl.
      + by rewrite <- !app_assoc.
      + reflexivity.
      + rewrite totalLength_app, totalLength_cons, totalLength_nil. lia. }
  split; [exact Hget|].
  unfold getOutputBuffer. rewrite Hget. simpl. unfold join. by rewrite concat_app.
Qed.

Lemma feed_within_high_water_witness :
  let st := (create (mkWorld "happy" "claude" "/bin/sh" false false)
               (mkOptions "s1" "/tmp" terminal None None)
               (initialState true true true)).2 in
  getOutputBuffer "s1" (feed "s1" [js "hi"; clearScreen; js "!"] st) = Some (js "hi!").
Proof.
  intros st.
  destruct (feed_within_high_water "s1" [js "hi"; clearScreen; js "!"] st
              (mkInstance 0 terminal "/tmp" true [] 0)) as [_ H].
  - reflexivity.
  - reflexivity.
  - vm_compute. discriminate.
  - rewrite H. reflexivity.
Defined.

(** ** The observer's count *)

Lemma last_app_singleton (l : list Z) (n : Z) : last (l ++ [n]) = Some n.
Proof. apply last_snoc. Qed.

Lemma notify_inSync (st : State) :
  countObserver st = true -> countInSync (notifyTerminalCountChange st).
Proof.
  intros Hobs. unfold notifyTerminalCountChange, countInSync. rewrite Hobs.
  simpl. by rewrite last_app_singleton.
Qed.

Lemma countInSync_ext (st st' : State) :
  counted st' = counted st -> map_size (instances st') = map_size (instances st) ->
  countInSync st -> countInSync st'.
Proof.
  unfold countInSync, map_size. intros -> Hsz. destruct (last (counted st)).
  - intros ->. unfold map_size. by rewrite Hsz.
  - intros Hnil. rewrite Hnil in Hsz. simpl in Hsz.
    destruct (instances st'); [reflexivity | simpl in Hsz; lia].
Qed.

Lemma kill_inSync (id : string) (st : State) :
  countObserver st = true -> countInSync st -> countInSync (kill id st).2.
Proof.
  intros Hobs Hsync. unfold kill. destruct (map_get id (instances st)) as [i|]; [|exact Hsync].
  apply notify_inSync. by destruct (usePty i).
Qed.

Lemma create_inSync (w : World) (o : CreatePtyOptions) (st : State) :
  countObserver st = true -> countInSync st -> countInSync (create w o st).2.
Proof.
  intros Hobs Hsync.
  destruct (create_fields w o st) as (_ & Hi & _ & _ & _ & _ & _ & _ & Hc & _).
  destruct (create w o st).1 eqn:Hok.
  - unfold countInSync. rewrite Hc, Hobs. simpl. by rewrite last_app_singleton.
  - apply (countInSync_ext st); [by rewrite Hc, app_nil_r | by rewrite Hi | exact Hsync].
Qed.

Lemma killAll_inSync (ids : list string) (st : State) :
  countObserver st = true -> countInSync st -> countInSync (killAll ids st).
Proof.
  revert st. induction ids as [|id ids IH]; intros st Hobs Hsync; [exact Hsync|].
  change (killAll (id :: ids) st) with (killAll ids (kill id st).2).
  apply IH; [|by apply kill_inSync].
  by destruct (kill_fields id st) as (_ & _ & _ & _ & _ & -> & _).
Qed.

Lemma step_inSync (op : Op) (st : State) :
  countObserver st = true -> countInSync st ->
  countObserver (step op st) = true /\ countInSync (step op st).
Proof.
  intros Hobs Hsync. destruct op; simpl.
  - destruct (create_fields w o st) as (_ & _ & _ & _ & _ & -> & _).
    split; [exact Hobs | by apply create_inSync].
  - unfold write. repeat case_match; by split.
  - unfold resize. repeat case_match; by split.
  - destruct (kill_fields id st) as (_ & _ & _ & _ & _ & -> & _).
    split; [exact Hobs | by apply kill_inSync].
  - destruct (restart_fields w id newCwd shell codeAgentType st)
      as [[_ ->] | (instance & Hget & _ & Hi & _ & _ & _ & Ho & _ & _ & Hc & _)]; [by split|].
    cbv zeta in *.
    set (o := mkOptions id newCwd (type instance) shell codeAgentType) in *.
    destruct (kill_fields id st) as (_ & Ki & _ & _ & _ & Ko & _).
    destruct (create_fields w o (kill id st).2) as (_ & Ci & _ & _ & _ & Co & _).
    assert (countInSync (create w o (kill id st).2).2) as Hsync'
      by (apply create_inSync; [by rewrite Ko | by apply kill_inSync]).
    split; [by rewrite Ho, Co, Ko|].
    apply (countInSync_ext (create w o (kill id st).2).2); [exact Hc | | exact Hsync'].
    rewrite Hi, Ci, Ki. destruct (create w o (kill id st).2).1; [|reflexivity].
    apply map_size_set_any.
  - unfold clearOutputBuffer. destruct (map_get id (instances st)) as [i|] eqn:E; [|by split].
    split; [exact Hobs|]. apply (countInSync_ext st); [reflexivity | | exact Hsync].
    simpl. apply map_size_set_present. unfold map_has. by rewrite E.
  - rewrite dispose_unfold.
    destruct (killAll_fields (map_keys (instances st)) (setDisposed true st))
      as (_ & _ & _ & _ & -> & _).
    split; [exact Hobs | by apply killAll_inSync].
  - destruct (onData_flags id data st) as (_ & Hc & _ & Ho). split; [by rewrite Ho|].
    apply (countInSync_ext st); [exact Hc | | exact Hsync].
    destruct (map_get id (instances st)) as [i|] eqn:E.
    + unfold onData, safeSend. rewrite E. case_match; simpl;
        apply map_size_set_present; unfold map_has; by rewrite E.
    + by rewrite onData_unregistered.
  - unfold onExit. split.
    + unfold notifyTerminalCountChange, safeSend. repeat case_match; simpl; done.
    + apply notify_inSync. unfold safeSend. case_match; simpl; done.
  - unfold onChildExit, onExit. split.
    + unfold notifyTerminalCountChange, safeSend. repeat case_match; simpl; done.
    + apply notify_inSync. unfold safeSend. case_match; simpl; done.
  - unfold onChildError, safeSend. case_match; by split.
  - by split.
Qed.

(** X8.  When an observer was supplied, the count it received last is
    always the number of registered sessions (and before it received any,
    there are none): every change of the registry's size is followed by a
    call before the method or callback returns. *)
Theorem observer_count_in_sync (ptyLoads spawnIsFunction : bool) (ops : list Op) :
  countInSync (run ops (initialState ptyLoads spawnIsFunction true)) /\
  (instances (run ops (initialState ptyLoads spawnIsFunction true)) <> [] ->
   exists n, last (counted (run ops (initialState ptyLoads spawnIsFunction true))) = Some n /\
             0 < n).
Proof.
  assert (forall st, countObserver st = true -> countInSync st ->
                     countInSync (run ops st)) as Hrun.
  { induction ops as [|op ops IH]; intros st Hobs Hsync; [exact Hsync|].
    rewrite run_cons. destruct (step_inSync op st Hobs Hsync) as [Hobs' Hsync'].
    by apply IH. }
  assert (countInSync (run ops (initialState ptyLoads spawnIsFunction true))) as H
    by (by apply Hrun).
  split; [exact H|]. intros Hne. unfold countInSync in H.
  destruct (last (counted _)) as [n|]; [|done].
  exists n. split; [reflexivity|]. subst n. unfold map_size.
  destruct (instances _); [done | simpl; lia].
Qed.

Lemma observer_count_in_sync_witness :
  exists n,
    last (counted (run [OpCreate (mkWorld "happy" "claude" "/bin/sh" false false)
                          (mkOptions "s1" "/tmp" terminal None None)]
                     (initialState true true true))) = Some n /\ 0 < n.
Proof.
  apply (observer_count_in_sync true true
           [OpCreate (mkWorld "happy" "claude" "/bin/sh" false false)
              (mkOptions "s1" "/tmp" terminal None None)]).
  discriminate.
Defined.

(** ** Restoring and clearing the buffer *)

Lemma clearOutputBuffer_registered (id : string) (st : State) (i : PtyInstance) :
  map_get id (instances st) = Some i ->
  map_get id (instances (clearOutputBuffer id st)) = Some (withBuffer ([], 0) i).
Proof.
  intros Hget. unfold clearOutputBuffer. rewrite Hget. simpl. apply map_get_set_eq.
Qed.

Lemma clearOutputBuffer_snapshot (id : string) (st : State) (i : PtyInstance) :
  map_get id (instances st) = Some i ->
  getOutputBuffer id (clearOutputBuffer id st) = Some [].
Proof.
  intros Hget. unfold getOutputBuffer.
  by rewrite (clearOutputBuffer_registered id st i Hget).
Qed.





(** ** Shutdown, again *)

Lemma setDisposed_already (st : State) :
  disposed st = true -> setDisposed true st = st.
Proof. destruct st. simpl. by intros ->. Qed.

(** X11.  [dispose] leaves the registry empty whatever it held, and a
    second [dispose] does nothing: no kill call, no observer call, the
    same state. *)
Theorem dispose_idempotent (st : State) :
  instances (dispose st) = [] /\
  dispose (dispose st) = dispose st.
Proof.
  assert (instances (dispose st) = []) as Hempty.
  { rewrite dispose_unfold.
    destruct (killAll_fields (map_keys (instances st)) (setDisposed true st)) as (-> & _).
    by apply delete_all_keys. }
  assert (disposed (dispose st) = true) as Hd.
  { rewrite dispose_unfold.
    by destruct (killAll_fields (map_keys (instances st)) (setDisposed true st))
      as (_ & -> & _). }
  split; [exact Hempty|].
  rewrite (dispose_unfold (dispose st)), (setDisposed_already _ Hd), Hempty. reflexivity.
Qed.

(** ** The earlier variant of the buffer *)

Lemma trimLoopJoin_more (a b : jsstring) (rest : list jsstring) :
  trimLoopJoin (a :: b :: rest) =
  if jslength (join (a :: b :: rest)) >? 40000 then trimLoopJoin (b :: rest)
  else a :: b :: rest.
Proof. reflexivity. Qed.

Lemma trimLoopJoin_spec (buf : list jsstring) :
  exists dropped,
    buf = dropped ++ trimLoopJoin buf /\
    (jslength (join (trimLoopJoin buf)) <= 40000 \/ (length (trimLoopJoin buf) <= 1)%nat) /\
    (forall d c, dropped = d ++ [c] ->
       jslength (join (trimLoopJoin buf)) + jslength c > 40000).
Proof.
  induction buf as [|a buf IH].
  - exists []. repeat split; [right; simpl; lia | intros [|??] ? ?; discriminate].
  - destruct buf as [|b rest].
    + exists []. repeat split; [right; simpl; lia | intros [|??] ? ?; discriminate].
    + rewrite trimLoopJoin_more.
      destruct (jslength (join (a :: b :: rest)) >? 40000) eqn:Hgt.
      * destruct IH as (dropped & Heq & Hguard & Hmin).
        exists (a :: dropped). split; [by rewrite <- app_comm_cons, <- Heq|].
        split; [exact Hguard|].
        intros d c Hd. destruct dropped as [|x dropped'] using rev_ind.
        -- destruct d as [|? [|??]]; try discriminate Hd. injection Hd as <-.
           change ([] ++ trimLoopJoin (b :: rest)) with (trimLoopJoin (b :: rest)) in Heq.
           apply Z.gtb_lt in Hgt. rewrite <- Heq.
           rewrite <- totalLength_join in Hgt |- *. rewrite totalLength_cons in Hgt. lia.
        -- change (a :: dropped' ++ [x]) with ((a :: dropped') ++ [x]) in Hd.
           apply app_inj_tail in Hd as [_ ->]. eapply Hmin. reflexivity.
      * exists []. split; [reflexivity|]. split.
        -- left. rewrite Z.gtb_ltb in Hgt. apply Z.ltb_ge in Hgt. exact Hgt.
        -- intros [|??] ? ?; discriminate.
Qed.

Lemma trimLoopJoin_keeps_last (kept : list jsstring) (data : jsstring) :
  exists kept', trimLoopJoin (kept ++ [data]) = kept' ++ [data].
Proof.
  induction kept as [|a kept IH].
  - by exists [].
  - rewrite <- app_comm_cons. destruct (kept ++ [data]) as [|b rest] eqn:E.
    + destruct kept; discriminate.
    + rewrite trimLoopJoin_more. destruct (_ >? 40000).
      * exact IH.
      * exists (a :: kept). by rewrite <- app_comm_cons, E.
Qed.

(** X12.  The earlier, join-measured variant of the data callback trims
    the same way with the marks 50000 and 40000: up to 50000 code units
    nothing is dropped; beyond, whole oldest chunks go until the joined
    length is at most 40000 or only the appended chunk is left, and none
    is dropped needlessly; the appended chunk always stays last. *)
Theorem join_variant_trims (data : jsstring) (buf : list jsstring) :
  (exists dropped kept,
     buf ++ [data] = dropped ++ pushOutputJoin data buf /\
     pushOutputJoin data buf = kept ++ [data] /\
     (forall d c, dropped = d ++ [c] ->
        jslength (join (pushOutputJoin data buf)) + jslength c > 40000)) /\
  (jslength (join (buf ++ [data])) <= 50000 -> pushOutputJoin data buf = buf ++ [data]) /\
  (jslength (join (buf ++ [data])) > 50000 ->
     jslength (join (pushOutputJoin data buf)) <= 40000 \/ pushOutputJoin data buf = [data]).
Proof.
  unfold pushOutputJoin. cbv zeta.
  destruct (trimLoopJoin_spec (buf ++ [data])) as (dropped & Heq & Hguard & Hmin).
  destruct (trimLoopJoin_keeps_last buf data) as [kept Hkept].
  destruct (jslength (join (buf ++ [data])) >? 50000) eqn:Hgt.
  - apply Z.gtb_lt in Hgt. split; [by exists dropped, kept|]. split; [lia|].
    intros _. destruct Hguard as [?|Hlen]; [by left | right].
    rewrite Hkept in Hlen |- *. rewrite length_app in Hlen. simpl in Hlen.
    destruct kept; [reflexivity | simpl in Hlen; lia].
  - rewrite Z.gtb_ltb in Hgt. apply Z.ltb_ge in Hgt. split; [|split; [done | lia]].
    exists [], buf. split; [reflexivity|]. split; [reflexivity|].
    intros [|??] ? ?; discriminate.
Qed.

Lemma join_variant_trims_witness :
  pushOutputJoin (js "b") [js "a"] = [js "a"] ++ [js "b"].
Proof.
  apply (join_variant_trims (js "b") [js "a"]). vm_compute. discriminate.
Defined.

(** * Executable and shell lookup *)

Lemma append_nonempty_r (a b : string) : b <> "" -> a +:+ b <> "".
Proof. destruct a; simpl; [done | discriminate]. Qed.

Lemma orDefault_nonempty (a : option string) (b : string) :
  b <> "" -> orDefault a b <> "".
Proof. unfold orDefault. destruct a as [s|]; [|done]. by destruct (decide (s = "")). Qed.

Lemma firstExisting_Some (h : Host) (paths : list string) (p : string) :
  firstExisting h paths = Some p ->
  existsSync h p = true /\
  exists before after,
    paths = before ++ p :: after /\
    Forall (fun q => existsSync h q = false) before.
Proof.
  unfold firstExisting. induction paths as [|q paths IH]; simpl; [discriminate|].
  destruct (existsSync h q) eqn:E.
  - intros [= <-]. split; [exact E|]. exists [], paths. by split.
  - intros Hf. destruct (IH Hf) as (Hp & before & after & -> & Hall).
    split; [exact Hp|]. exists (q :: before), after. split; [reflexivity | by constructor].
Qed.

Lemma firstExisting_None (h : Host) (paths : list string) :
  firstExisting h paths = None <-> Forall (fun q => existsSync h q = false) paths.
Proof.
  unfold firstExisting. induction paths as [|q paths IH]; simpl.
  - split; [constructor | done].
  - destruct (existsSync h q) eqn:E.
    + split; [discriminate | intros H; inversion H; congruence].
    + rewrite IH. split; [by constructor | by inversion 1].
Qed.

(** X13.  [getDefaultShell] never returns the empty string, so a regular
    terminal is never spawned with an empty command: the executable is the
    override when one is given and not empty, and the default shell
    otherwise.  It gets the arguments -ExecutionPolicy Bypass -NoLogo
    exactly when its name contains "powershell" or "pwsh". *)
Theorem terminal_executable_never_empty (h : Host) (ptyThrows childThrows : bool)
    (o : CreatePtyOptions) (Hkind : o_type o = terminal) :
  getDefaultShell h <> "" /\
  (resolveExecutable (hostWorld h ptyThrows childThrows) o).1 <> "" /\
  (resolveExecutable (hostWorld h ptyThrows childThrows) o).1 =
    orDefault (o_shell o) (getDefaultShell h) /\
  (resolveExecutable (hostWorld h ptyThrows childThrows) o).2 =
    (if isPowerShell (resolveExecutable (hostWorld h ptyThrows childThrows) o).1
     then ["-ExecutionPolicy"; "Bypass"; "-NoLogo"] else []).
Proof.
  assert (getDefaultShell h <> "") as Hshell.
  { unfold getDefaultShell. destruct (platform h).
    - destruct (firstExisting h _) as [p|] eqn:E; [|discriminate].
      apply firstExisting_Some in E as (_ & before & after & Heq & _).
      intros ->. destruct before as [|? [|? [|? [|??]]]]; simplify_eq/=.
      match goal with H : _ +:+ _ = "" |- _ => by apply append_nonempty_r in H end.
    - by apply orDefault_nonempty.
    - destruct (map_get "SHELL" (processEnv h)) as [s|];
        [destruct (decide (s = "")); [|done]|];
        by destruct (existsSync h "/bin/bash"). }
  split; [exact Hshell|].
  unfold resolveExecutable. rewrite Hkind. cbn [fst snd hostWorld defaultShell].
  split; [|split; reflexivity].
  destruct (o_shell o) as [s|]; [|exact Hshell].
  by destruct (decide (s = "")).
Qed.

Lemma terminal_executable_never_empty_witness :
  (resolveExecutable
     (hostWorld (mkHost linux "/home/u" [] (fun _ => false) (fun _ => None)
                   (String.concat "/") None) false false)
     (mkOptions "s1" "/tmp" terminal (Some "") None)).1 = "/bin/sh".
Proof.
  destruct (terminal_executable_never_empty
              (mkHost linux "/home/u" [] (fun _ => false) (fun _ => None)
                 (String.concat "/") None) false false
              (mkOptions "s1" "/tmp" terminal (Some "") None) eq_refl)
    as (_ & _ & H & _).
  rewrite H. reflexivity.
Defined.

(** X14.  [findHappyExecutable] and [findClaudeExecutable] never fail:
    the result is the first candidate that exists, or the bare name when
    none does.  Whatever happens to the nvm lookup (no directory, a
    [readdirSync] that throws), the fixed locations are still tried: off
    Windows, if /usr/bin/<name> exists the result is a file that exists. *)
Theorem findExecutable_first_hit (name : string) (h : Host) :
  ((existsSync h (findExecutable name h) = true /\
    exists before after,
      possiblePaths name h = before ++ findExecutable name h :: after /\
      Forall (fun q => existsSync h q = false) before) \/
   (findExecutable name h = name /\
    Forall (fun q => existsSync h q = false) (possiblePaths name h))) /\
  (platform h <> win32 -> existsSync h ("/usr/bin/" +:+ name) = true ->
   existsSync h (findExecutable name h) = true) /\
  findHappyExecutable h = findExecutable "happy" h /\
  findClaudeExecutable h = findExecutable "claude" h.
Proof.
  split; [|split; [|by split]].
  - unfold findExecutable. destruct (firstExisting h (possiblePaths name h)) as [p|] eqn:E.
    + left. by apply firstExisting_Some.
    + right. split; [reflexivity | by apply firstExisting_None].
  - intros Hplat Hexists. unfold findExecutable.
    destruct (firstExisting h (possiblePaths name h)) as [p|] eqn:E.
    + by apply firstExisting_Some in E as [? _].
    + exfalso. apply firstExisting_None in E. rewrite Forall_forall in E.
      assert ("/usr/bin/" +:+ name ∈ possiblePaths name h) as Hin.
      { unfold possiblePaths. destruct (platform h); [done| |];
          apply elem_of_app; right; in_list. }
      specialize (E _ Hin). congruence.
Qed.

Lemma findExecutable_first_hit_witness :
  existsSync (mkHost linux "/home/u" [] (fun p => String.eqb p "/usr/bin/happy")
                (fun _ => None) (String.concat "/") None)
    (findExecutable "happy"
       (mkHost linux "/home/u" [] (fun p => String.eqb p "/usr/bin/happy")
          (fun _ => None) (String.concat "/") None)) = true.
Proof.
  apply (findExecutable_first_hit "happy"
           (mkHost linux "/home/u" [] (fun p => String.eqb p "/usr/bin/happy")
              (fun _ => None) (String.concat "/") None)).
  - discriminate.
  - reflexivity.
Defined.

Lemma string_app_assoc (a b c : string) : (a +:+ b) +:+ c = a +:+ (b +:+ c).
Proof.
  induction a as [|x a IH]; [reflexivity|].
  change (String x ((a +:+ b) +:+ c) = String x (a +:+ (b +:+ c))). by f_equal.
Qed.

Lemma concat_snoc (sep p : string) (l : list string) :
  String.concat sep (l ++ [p]) =
  match l with
  | [] => p
  | _ => String.concat sep l +:+ sep +:+ p
  end.
Proof.
  induction l as [|x l IH]; [reflexivity|].
  destruct l as [|y l]; [reflexivity|].
  change ((x :: y :: l) ++ [p]) with (x :: ((y :: l) ++ [p])).
  change (String.concat sep (x :: (y :: l) ++ [p]))
    with (x +:+ sep +:+ String.concat sep ((y :: l) ++ [p])).
  rewrite IH.
  change (String.concat sep (x :: y :: l)) with (x +:+ sep +:+ String.concat sep (y :: l)).
  generalize (String.concat sep (y :: l)). intros z.
  by rewrite !string_app_assoc.
Qed.

(** X15.  When PATH is set and not empty, [getEnhancedPath] ends with the
    original PATH: it is the directories found, each followed by the
    separator, and then PATH itself; with no directory found it is PATH
    unchanged.  On Windows every directory put in front exists. *)
Theorem enhanced_path_keeps_path (h : Host) (p : string)
    (Hpath : map_get "PATH" (processEnv h) = Some p) (Hne : p <> "") :
  (exists front, getEnhancedPath h = front +:+ p) /\
  (enhancedDirs h = [] -> getEnhancedPath h = p) /\
  (platform h = win32 -> Forall (fun d => existsSync h d = true) (enhancedDirs h)).
Proof.
  unfold getEnhancedPath. rewrite Hpath. rewrite decide_False by done.
  split; [|split].
  - rewrite concat_snoc. destruct (enhancedDirs h) as [|d ds].
    + by exists "".
    + eexists. rewrite <- string_app_assoc. reflexivity.
  - intros ->. reflexivity.
  - intros Hwin. unfold enhancedDirs. rewrite Hwin.
    apply Forall_forall. intros d Hd. apply list_elem_of_In, List.filter_In in Hd. tauto.
Qed.

Lemma enhanced_path_keeps_path_witness :
  getEnhancedPath (mkHost linux "/home/u" [("PATH", "/usr/bin")] (fun _ => false)
                     (fun _ => None) (String.concat "/") None) = "/usr/bin".
Proof.
  apply (enhanced_path_keeps_path
           (mkHost linux "/home/u" [("PATH", "/usr/bin")] (fun _ => false)
              (fun _ => None) (String.concat "/") None) "/usr/bin");
    [reflexivity | discriminate | reflexivity].
Defined.

Lemma create_backend (w : World) (o : CreatePtyOptions) (st : State) :
  backend (create w o st).2 =
    backend st
    ++ (if nativeTried st
        then [PtySpawn (mkSpawn (resolveExecutable w o).1 (resolveExecutable w o).2 (o_cwd o))
                (if ptySpawnThrows w then None else Some (nextHandle st))]
        else [])
    ++ (if nativeOk w st then []
        else [ChildSpawn
                (mkSpawn (resolveExecutable w o).1
                   (pipedArgs (resolveExecutable w o).1 (resolveExecutable w o).2) (o_cwd o))
                (if childSpawnThrows w then None else Some (nextHandle st))]).
Proof.
  remember (create w o st) as r eqn:Hr.
  unfold create, createNative, createPiped in Hr.
  destruct (resolveExecutable w o) as [exe args]. cbn [fst snd].
  destruct w as [hp cp ds pthrows cthrows].
  unfold safeSend, notifyTerminalCountChange in Hr.
  unfold nativeOk, nativeTried, pipedArgs.
  split_state st; destruct pthrows, cthrows; cbn in Hr; subst r; cbn;
    rewrite <- ?app_assoc, ?app_nil_r; reflexivity.
Qed.

(** X16.  The spawns [create] attempts: the native one exactly when the
    native flag is up, and the piped one exactly when the native one was
    not attempted or threw.  Both get the executable and arguments that
    were resolved and the cwd that was passed; the piped one gets in
    addition -NoExit -Command ... when the executable is a PowerShell. *)
Theorem create_spawn_calls (w : World) (o : CreatePtyOptions) (st : State) :
  backend (create w o st).2 =
    backend st
    ++ (if nativeTried st
        then [PtySpawn (mkSpawn (resolveExecutable w o).1 (resolveExecutable w o).2 (o_cwd o))
                (if ptySpawnThrows w then None else Some (nextHandle st))]
        else [])
    ++ (if nativeOk w st then []
        else [ChildSpawn
                (mkSpawn (resolveExecutable w o).1
                   (pipedArgs (resolveExecutable w o).1 (resolveExecutable w o).2) (o_cwd o))
                (if childSpawnThrows w then None else Some (nextHandle st))]).
Proof. apply create_backend. Qed.

(** * The environment of the spawned process *)

Lemma append_cons (c : Ascii.ascii) (a b : string) : String c a +:+ b = String c (a +:+ b).
Proof. reflexivity. Qed.

Lemma hasChar_app (c : Ascii.ascii) (a b : string) :
  hasChar c (a +:+ b) = hasChar c a || hasChar c b.
Proof.
  induction a as [|x a IH]; [reflexivity|].
  rewrite append_cons. simpl. rewrite IH. by rewrite orb_assoc.
Qed.

Lemma splitOn_nonempty (sep : Ascii.ascii) (s : string) : splitOn sep s <> [].
Proof.
  induction s as [|c s IH]; simpl; [discriminate|].
  destruct (Ascii.eqb c sep); [discriminate|]. by destruct (splitOn sep s).
Qed.

Lemma splitOn_line (s rest : string) :
  hasChar LF s = false -> splitOn LF (s +:+ String LF rest) = s :: splitOn LF rest.
Proof.
  induction s as [|c s IH]; intros Hs.
  - reflexivity.
  - rewrite append_cons. simpl in Hs |- *. apply orb_false_elim in Hs as [Hc Hs].
    rewrite Hc, (IH Hs). reflexivity.
Qed.

Lemma splitOn_no_sep (sep : Ascii.ascii) (s : string) :
  Forall (fun line => hasChar sep line = false) (splitOn sep s).
Proof.
  induction s as [|c s IH]; simpl; [by repeat constructor|].
  destruct (Ascii.eqb c sep) eqn:E; [by constructor|].
  destruct (splitOn sep s) as [|line lines]; [by repeat constructor; simpl; rewrite E|].
  inversion IH; subst. constructor; [simpl; by rewrite E | done].
Qed.

Lemma cutAt_Some (sep : Ascii.ascii) (line key value : string) :
  cutAt sep line = Some (key, value) ->
  line = key +:+ String sep value /\ hasChar sep key = false.
Proof.
  revert key. induction line as [|c line IH]; intros key; simpl; [discriminate|].
  destruct (Ascii.eqb_spec c sep) as [->|Hne].
  - by intros [= <- <-].
  - destruct (cutAt sep line) as [[k v]|]; [|discriminate].
    intros [= <- <-]. destruct (IH k eq_refl) as [-> Hk]. split; [reflexivity|].
    simpl. rewrite Hk. by destruct (Ascii.eqb_spec c sep).
Qed.

Lemma cutAt_app (sep : Ascii.ascii) (key value : string) :
  hasChar sep key = false -> cutAt sep (key +:+ String sep value) = Some (key, value).
Proof.
  induction key as [|c key IH]; intros Hk.
  - simpl. by rewrite Ascii.eqb_refl.
  - rewrite append_cons. simpl in Hk |- *. apply orb_false_elim in Hk as [Hc Hk].
    by rewrite Hc, (IH Hk).
Qed.

Lemma map_set_entries {V : Type} (P : string * V -> Prop) (k : string) (v : V)
    (m : list (string * V)) :
  P (k, v) -> Forall P m -> Forall P (map_set k v m).
Proof.
  intros Hkv Hm. induction Hm as [|[k' v'] m Hx Hm IH]; simpl; [by repeat constructor|].
  destruct (decide (k = k')); by constructor.
Qed.

Lemma map_get_entry {V : Type} (P : string * V -> Prop) (k : string) (v : V)
    (m : list (string * V)) :
  Forall P m -> map_get k m = Some v -> P (k, v).
Proof.
  induction 1 as [|[k' v'] m Hx Hm IH]; simpl; [discriminate|].
  destruct (decide (k = k')) as [->|]; [by intros [= <-] | exact IH].
Qed.

Lemma parseEnv_entries (lines : list string) (acc : list (string * string)) :
  Forall (fun line => hasChar LF line = false) lines ->
  Forall printable acc -> NoDup (map_keys acc) ->
  Forall printable (foldl parseEnvLine acc lines) /\
  NoDup (map_keys (foldl parseEnvLine acc lines)).
Proof.
  intros Hlines. revert acc. induction Hlines as [|line lines Hline Hlines IH]; intros acc Hacc Hnd.
  - by split.
  - simpl. apply IH.
    + unfold parseEnvLine. destruct (cutAt EQ line) as [[key value]|] eqn:E; [|exact Hacc].
      destruct (decide (key = "")); [exact Hacc|].
      apply cutAt_Some in E as [-> Hk].
      rewrite hasChar_app in Hline. apply orb_false_elim in Hline as [Hk' Hv].
      change (hasChar LF (String EQ value)) with (hasChar LF value) in Hv.
      by apply map_set_entries.
    + unfold parseEnvLine. destruct (cutAt EQ line) as [[key value]|]; [|exact Hnd].
      destruct (decide (key = "")); [exact Hnd | by apply map_set_NoDup].
Qed.

Lemma getShellEnv_entries (h : Host) :
  Forall printable (getShellEnv h) /\ NoDup (map_keys (getShellEnv h)).
Proof.
  unfold getShellEnv. destruct (loginShellEnv h) as [out|].
  - apply parseEnv_entries; [apply splitOn_no_sep | constructor | constructor].
  - split; constructor.
Qed.

(** X17.  Whatever the login shell printed, every variable [getShellEnv]
    returns has a non-empty name without '=' or line break and a value
    without line break, and no name occurs twice; when the shell could not
    be run the result is the empty environment. *)
Theorem shell_env_well_formed (h : Host) :
  Forall printable (getShellEnv h) /\
  NoDup (map_keys (getShellEnv h)) /\
  (loginShellEnv h = None -> getShellEnv h = []) /\
  (forall name value, map_get name (getShellEnv h) = Some value ->
     name <> "" /\ hasChar EQ name = false /\ hasChar LF value = false).
Proof.
  destruct (getShellEnv_entries h) as [Hp Hnd].
  split; [exact Hp|]. split; [exact Hnd|]. split.
  - intros Hnone. unfold getShellEnv. by rewrite Hnone.
  - intros name value Hget.
    destruct (map_get_entry printable name value _ Hp Hget) as (? & ? & ? & ?). by repeat split.
Qed.

Lemma shell_env_well_formed_witness :
  getShellEnv (mkHost linux "/home/u" [] (fun _ => false) (fun _ => None)
                 (String.concat "/") None) = [].
Proof.
  apply (shell_env_well_formed
           (mkHost linux "/home/u" [] (fun _ => false) (fun _ => None)
              (String.concat "/") None)).
  reflexivity.
Defined.

Lemma parseEnv_render (bindings acc : list (string * string)) :
  Forall printable bindings ->
  foldl parseEnvLine acc (splitOn LF (renderEnv bindings)) = objAssign bindings acc.
Proof.
  intros Hb. revert acc. induction Hb as [|[key value] bindings (Hk & Heq & Hkl & Hvl) Hb IH]; intros acc.
  - reflexivity.
  - cbn [renderEnv].
    replace (key +:+ String EQ (value +:+ String LF (renderEnv bindings)))
      with ((key +:+ String EQ value) +:+ String LF (renderEnv bindings))
      by (rewrite string_app_assoc, append_cons; reflexivity).
    rewrite splitOn_line.
    + cbn [foldl]. rewrite IH. unfold objAssign at 2. cbn [foldl].
      unfold parseEnvLine. simpl in *. rewrite cutAt_app by done.
      by rewrite decide_False.
    + rewrite hasChar_app. simpl in *. rewrite Hkl, Hvl. reflexivity.
Qed.



Lemma map_get_objAssign (k : string) (src dst : list (string * string)) :
  NoDup (map_keys src) ->
  map_get k (objAssign src dst) =
    match map_get k src with
    | Some v => Some v
    | None => map_get k dst
    end.
Proof.
  unfold objAssign. revert dst. induction src as [|[k0 v0] src IH]; intros dst Hnd; [reflexivity|].
  change (map_keys ((k0, v0) :: src)) with (k0 :: map_keys src) in Hnd.
  apply NoDup_cons in Hnd as [Hk0 Hnd]. cbn [foldl fst snd map_get].
  rewrite (IH _ Hnd). destruct (decide (k = k0)) as [->|Hne].
  - apply map_get_None_keys in Hk0. by rewrite Hk0, map_get_set_eq.
  - destruct (map_get k src); [reflexivity|]. by rewrite map_get_set_ne.
Qed.



(** * The renderer's side *)

(** ** Pasting *)

Lemma sliceLoop_concat (text : jsstring) (fuel i : nat) :
  (length text - i <= fuel)%nat -> concat (sliceLoop fuel i text) = drop i text.
Proof.
  revert i. induction fuel as [|fuel IH]; intros i Hfuel.
  - simpl. symmetry. apply drop_ge. lia.
  - cbn [sliceLoop]. destruct (Nat.ltb_spec i (length text)) as [Hlt|Hge].
    + cbn [concat]. rewrite IH by lia.
      rewrite <- drop_drop. apply take_drop.
    + symmetry. apply drop_ge. lia.
Qed.

Lemma sliceLoop_sizes (text : jsstring) (fuel i : nat) :
  Forall (fun chunk => (0 < length chunk <= 1000)%nat) (sliceLoop fuel i text).
Proof.
  revert i. induction fuel as [|fuel IH]; intros i; [constructor|].
  cbn [sliceLoop]. destruct (Nat.ltb_spec i (length text)) as [Hlt|Hge]; [|constructor].
  constructor; [|apply IH]. rewrite length_take, length_drop. lia.
Qed.

Lemma write_fields (id : string) (data : jsstring) (st : State) :
  instances (write id data st) = instances st /\
  sent (write id data st) = sent st /\
  counted (write id data st) = counted st /\
  backend (write id data st) =
    backend st ++ (match map_get id (instances st) with
                   | Some i => [if usePty i then PtyWrite (process i) data
                                else StdinWrite (process i) data]
                   | None => []
                   end).
Proof.
  unfold write. destruct (map_get id (instances st)) as [i|].
  - destruct (usePty i); by repeat split.
  - rewrite app_nil_r. by repeat split.
Qed.

Lemma writes_backend (id : string) (chunks : list jsstring) (st : State) :
  instances (foldl (fun st chunk => write id chunk st) st chunks) = instances st /\
  backend (foldl (fun st chunk => write id chunk st) st chunks) =
    backend st ++ (match map_get id (instances st) with
                   | Some i => map (fun chunk => if usePty i then PtyWrite (process i) chunk
                                                 else StdinWrite (process i) chunk) chunks
                   | None => []
                   end).
Proof.
  revert st. induction chunks as [|c chunks IH]; intros st.
  - simpl. split; [reflexivity|]. destruct (map_get id (instances st)); by rewrite app_nil_r.
  - cbn [foldl]. destruct (IH (write id c st)) as [Hi Hb].
    destruct (write_fields id c st) as (Wi & _ & _ & Wb).
    rewrite Hi, Hb, Wi, Wb. split; [reflexivity|].
    destruct (map_get id (instances st)) as [i|]; simpl; by rewrite <- ?app_assoc.
Qed.

(** X20.  A paste loses nothing and reorders nothing: the strings written
    are never empty and put together give the pasted text; an empty paste
    writes nothing, a paste of up to 2000 code units is one write, a longer
    one is cut into pieces of at most 1000.  Written one after the other
    to a registered session they become exactly that many write calls on
    its process, through the API of its backend; to an unknown id,
    nothing. *)
Theorem paste_delivers_text (id : string) (text : jsstring) (st : State) :
  concat (handlePasteText text) = text /\
  Forall (fun chunk => chunk <> []) (handlePasteText text) /\
  (jslength text <= 2000 -> text <> [] -> handlePasteText text = [text]) /\
  (jslength text > 2000 ->
     Forall (fun chunk => jslength chunk <= 1000) (handlePasteText text)) /\
  instances (pasteInto id text st) = instances st /\
  backend (pasteInto id text st) =
    backend st ++ (match map_get id (instances st) with
                   | Some i => map (fun chunk => if usePty i then PtyWrite (process i) chunk
                                                 else StdinWrite (process i) chunk)
                                 (handlePasteText text)
                   | None => []
                   end).
Proof.
  assert (text <> [] -> (jslength text >? 2000) = true ->
          handlePasteText text = sliceLoop (length text) 0 text) as Hlong.
  { intros Hne Hgt. unfold handlePasteText. destruct text; [done | by rewrite Hgt]. }
  assert (text <> [] -> (jslength text >? 2000) = false -> handlePasteText text = [text]) as Hshort.
  { intros Hne Hle. unfold handlePasteText. destruct text; [done | by rewrite Hle]. }
  assert (concat (sliceLoop (length text) 0 text) = text) as Hcat.
  { rewrite sliceLoop_concat; [reflexivity|]. apply Nat.le_sub_l. }
  split; [|split; [|split; [|split]]].
  - destruct (decide (text = [])) as [->|Hne]; [reflexivity|].
    destruct (jslength text >? 2000) eqn:Hgt.
    + by rewrite Hlong.
    + rewrite Hshort by done. simpl. apply app_nil_r.
  - destruct (decide (text = [])) as [->|Hne]; [constructor|].
    destruct (jslength text >? 2000) eqn:Hgt.
    + rewrite Hlong by done.
      eapply Forall_impl; [apply sliceLoop_sizes|]. intros chunk Hc ->. simpl in Hc. lia.
    + rewrite Hshort by done. by repeat constructor.
  - intros Hle Hne. apply Hshort; [exact Hne|]. rewrite Z.gtb_ltb. apply Z.ltb_ge. lia.
  - intros Hgt. assert (text <> []) as Hne by (intros ->; unfold jslength in Hgt; simpl in Hgt; lia).
    rewrite Hlong by (done || apply Z.gtb_lt; lia).
    eapply Forall_impl; [apply sliceLoop_sizes|].
    intros chunk Hc. simpl in Hc. unfold jslength. lia.
  - apply writes_backend.
Qed.

Lemma paste_delivers_text_witness :
  handlePasteText (js "ls -la") = [js "ls -la"].
Proof.
  apply (paste_delivers_text "s1" (js "ls -la") (initialState true true true)).
  - vm_compute. discriminate.
  - discriminate.
Defined.

(** ** The shell from the settings *)

Lemma includes_app (needle pre hay : string) :
  includes needle hay = true -> includes needle (pre +:+ hay) = true.
Proof.
  intros Hin. induction pre as [|c pre IH]; [exact Hin|].
  change (String c pre +:+ hay) with (String c (pre +:+ hay)).
  cbn [includes]. destruct (String.prefix needle (String c (pre +:+ hay))); [reflexivity|].
  exact IH.
Qed.

Ltac decide_strings :=
  repeat first [ rewrite decide_True by reflexivity
               | rewrite decide_False by discriminate ].

(** X21.  The shell setting as [create] gets it: 'auto', 'zsh' and 'bash'
    give no override, so the host's default shell is spawned; 'pwsh' and
    'powershell' on Windows give a PowerShell, which is therefore spawned
    with -ExecutionPolicy Bypass -NoLogo; a custom path that is not empty
    is passed as it is. *)
Theorem shell_setting_resolves (h : Host) (ptyThrows childThrows : bool)
    (id cwd : string) (shell customShellPath : string) :
  let o := mkOptions id cwd terminal (getShellFromSettings h shell customShellPath) None in
  let w := hostWorld h ptyThrows childThrows in
  (shell ∈ ["auto"; "zsh"; "bash"] ->
     (resolveExecutable w o).1 = getDefaultShell h) /\
  (platform h = win32 -> shell ∈ ["pwsh"; "powershell"] ->
     isPowerShell (resolveExecutable w o).1 = true /\
     (resolveExecutable w o).2 = ["-ExecutionPolicy"; "Bypass"; "-NoLogo"]) /\
  (shell = "custom" -> customShellPath <> "" ->
     (resolveExecutable w o).1 = customShellPath).
Proof.
  intros o w. unfold resolveExecutable. cbn [o_type o o_shell fst snd].
  split; [|split].
  - intros Hs. repeat (apply elem_of_cons in Hs as [->|Hs]); [ | | | by apply elem_of_nil in Hs].
    all: unfold getShellFromSettings, getShellPath; decide_strings; by destruct (platform h).
  - intros Hwin Hs.
    assert (exists exe, getShellFromSettings h shell customShellPath = Some exe /\
                        isPowerShell exe = true) as (exe & -> & Hps).
    { repeat (apply elem_of_cons in Hs as [->|Hs]); [ | | by apply elem_of_nil in Hs].
      - unfold getShellFromSettings, getShellPath. rewrite Hwin. decide_strings.
        destruct (firstExisting h _) as [p|] eqn:E; [|by eexists].
        exists p. split; [reflexivity|].
        apply firstExisting_Some in E as (_ & before & after & Heq & _).
        destruct before as [|? [|? [|? [|??]]]]; simplify_eq/=; try reflexivity.
        unfold isPowerShell. rewrite (includes_app "pwsh"); [apply orb_true_r | reflexivity].
      - unfold getShellFromSettings, getShellPath. rewrite Hwin. decide_strings.
        by eexists. }
    assert (exe <> "") as Hne by (intros ->; discriminate Hps).
    rewrite decide_False by done. by rewrite Hps.
  - intros -> Hne. unfold getShellFromSettings. decide_strings.
    rewrite decide_False by done. by rewrite decide_False.
Qed.

Lemma shell_setting_resolves_witness :
  (resolveExecutable
     (hostWorld (mkHost win32 "C:\Users\u" [] (fun _ => false) (fun _ => None)
                   (String.concat "\") None) false false)
     (mkOptions "s1" "C:\" terminal
        (getShellFromSettings
           (mkHost win32 "C:\Users\u" [] (fun _ => false) (fun _ => None)
              (String.concat "\") None) "pwsh" "") None)).2
  = ["-ExecutionPolicy"; "Bypass"; "-NoLogo"].
Proof.
  apply (shell_setting_resolves
           (mkHost win32 "C:\Users\u" [] (fun _ => false) (fun _ => None)
              (String.concat "\") None) false false "s1" "C:\" "pwsh" "").
  - reflexivity.
  - in_list.
Defined.

(** ** The thumbnail preview *)

Lemma skipParams_suffix (s : jsstring) : exists run, s = run ++ skipParams s.
Proof.
  induction s as [|c s IH]; [by exists []|]. simpl.
  destruct (isParam c); [|by exists []].
  destruct IH as [run Hrun]. exists (c :: run). simpl. by f_equal.
Qed.

Lemma matchSgr_Some (s after : jsstring) :
  matchSgr s = Some after ->
  exists matched, s = matched ++ after /\ (3 <= length matched)%nat /\ head matched = Some 27%N.
Proof.
  unfold matchSgr. destruct s as [|a [|b rest]]; try discriminate.
  destruct (N.eqb_spec a 27) as [->|]; [|discriminate].
  destruct (N.eqb_spec b 91) as [->|]; [|discriminate]. simpl.
  destruct (skipParams_suffix rest) as [run Hrun].
  destruct (skipParams rest) as [|m after']; [discriminate|].
  destruct (N.eqb_spec m 109) as [->|]; [|discriminate]. intros [= ->].
  exists (27%N :: 91%N :: run ++ [109%N]). split; [|split; [|reflexivity]].
  - simpl. rewrite <- app_assoc. simpl. by rewrite <- Hrun.
  - simpl. rewrite length_app. simpl. lia.
Qed.

Lemma removeSgrFuel_enough (fuel : nat) (s : jsstring) :
  (length s <= fuel)%nat -> removeSgrFuel fuel s = removeSgrFuel (length s) s.
Proof.
  revert s. induction fuel as [fuel IH] using lt_wf_ind. intros s Hlen.
  destruct s as [|c rest]; [by destruct fuel|].
  destruct fuel as [|fuel]; [simpl in Hlen; lia|].
  cbn [removeSgrFuel length]. destruct (matchSgr (c :: rest)) as [after|] eqn:E.
  - apply matchSgr_Some in E as (matched & Hs & Hm & _).
    apply (f_equal length) in Hs. rewrite length_app in Hs. simpl in Hs, Hlen.
    rewrite (IH fuel) by lia. rewrite (IH (length rest)) by lia. reflexivity.
  - f_equal. simpl in Hlen. rewrite (IH fuel) by lia. reflexivity.
Qed.

(** The scan for colour codes, one step at a time. *)
Lemma removeSgr_cons (c : code_unit) (rest : jsstring) :
  removeSgr (c :: rest) =
  match matchSgr (c :: rest) with
  | Some after => removeSgr after
  | None => c :: removeSgr rest
  end.
Proof.
  unfold removeSgr. cbn [removeSgrFuel length].
  destruct (matchSgr (c :: rest)) as [after|] eqn:E; [|reflexivity].
  apply removeSgrFuel_enough.
  apply matchSgr_Some in E as (matched & Hs & Hm & _).
  apply (f_equal length) in Hs. rewrite length_app in Hs. simpl in Hs. lia.
Qed.

Lemma removeSgr_sublist (s : jsstring) : removeSgr s `sublist_of` s.
Proof.
  remember (length s) as n eqn:Hn. revert s Hn.
  induction n as [n IH] using lt_wf_ind. intros s ->.
  destruct s as [|c rest]; [reflexivity|]. rewrite removeSgr_cons.
  destruct (matchSgr (c :: rest)) as [after|] eqn:E.
  - apply matchSgr_Some in E as (matched & Hs & Hm & _). rewrite Hs.
    apply sublist_inserts_l. apply (IH (length after)); [|reflexivity].
    apply (f_equal length) in Hs. rewrite length_app in Hs. simpl in Hs |- *. lia.
  - apply sublist_skip. apply (IH (length rest)); [|reflexivity]. simpl. lia.
Qed.

Lemma removeSgr_no_esc (s : jsstring) : 27%N ∉ s -> removeSgr s = s.
Proof.
  induction s as [|c s IH]; intros Hno; [reflexivity|].
  rewrite removeSgr_cons. apply not_elem_of_cons in Hno as [Hc Hno].
  destruct (matchSgr (c :: s)) as [after|] eqn:E.
  - apply matchSgr_Some in E as (matched & Hs & _ & Hhead).
    destruct matched as [|x matched]; [discriminate|].
    simpl in Hs, Hhead. injection Hhead as Hx. injection Hs as Hc' _. congruence.
  - by rewrite IH.
Qed.

Lemma splitLines_nonempty (s : jsstring) : splitLines s <> [].
Proof.
  induction s as [|c s IH]; simpl; [discriminate|].
  destruct (c =? 10)%N; [discriminate | by destruct (splitLines s)].
Qed.

Lemma joinLines_cons (line : jsstring) (lines : list jsstring) :
  lines <> [] -> joinLines (line :: lines) = line ++ 10%N :: joinLines lines.
Proof. destruct lines as [|l lines]; [done | reflexivity]. Qed.

(** Splitting into lines and joining them again gives the string back. *)
Lemma joinLines_splitLines (s : jsstring) : joinLines (splitLines s) = s.
Proof.
  induction s as [|c s IH]; [reflexivity|]. cbn [splitLines].
  destruct (N.eqb_spec c 10) as [->|Hne].
  - rewrite joinLines_cons by apply splitLines_nonempty. simpl. by rewrite IH.
  - pose proof (splitLines_nonempty s) as Hs.
    destruct (splitLines s) as [|line lines]; [done|].
    by rewrite <- IH.
Qed.

Lemma splitLines_length (s : jsstring) : length (splitLines s) = S (countLF s).
Proof.
  induction s as [|c s IH]; [reflexivity|]. cbn [splitLines countLF].
  destruct (c =? 10)%N; [simpl; by rewrite IH|].
  pose proof (splitLines_nonempty s).
  destruct (splitLines s) as [|line lines]; [done | exact IH].
Qed.

Lemma splitLines_no_LF (s : jsstring) :
  Forall (fun line => countLF line = O) (splitLines s).
Proof.
  induction s as [|c s IH]; [by repeat constructor|]. cbn [splitLines].
  destruct (c =? 10)%N eqn:E; [by constructor|].
  destruct (splitLines s) as [|line lines]; [repeat constructor; simpl; by rewrite E|].
  inversion IH; subst. constructor; [simpl; by rewrite E | done].
Qed.

Lemma countLF_app (a b : jsstring) : countLF (a ++ b) = (countLF a + countLF b)%nat.
Proof.
  induction a as [|c a IH]; [reflexivity|]. simpl. destruct (c =? 10)%N; simpl; lia.
Qed.

Lemma countLF_joinLines (lines : list jsstring) :
  Forall (fun line => countLF line = O) lines ->
  countLF (joinLines lines) = pred (length lines).
Proof.
  induction 1 as [|line lines Hline Hlines IH]; [reflexivity|].
  destruct lines as [|l lines].
  - simpl. by rewrite app_nil_r.
  - rewrite joinLines_cons by done. rewrite countLF_app, Hline. simpl in IH |- *.
    by rewrite IH.
Qed.

Lemma joinLines_drop_suffix (k : nat) (lines : list jsstring) :
  joinLines (drop k lines) `suffix_of` joinLines lines.
Proof.
  revert lines. induction k as [|k IH]; intros lines; [by rewrite drop_0|].
  destruct lines as [|line lines]; [done|]. cbn [drop].
  etrans; [apply IH|]. destruct lines as [|l lines].
  - apply suffix_nil.
  - rewrite (joinLines_cons line) by done.
    apply suffix_app_r, suffix_cons_r. reflexivity.
Qed.

(** X22.  The preview kept for a thumbnail is the tail of the cleaned
    text, cut at a line break, with at most 8 lines; it is the whole
    cleaned text when that has no more than 8 lines.  Cleaning only takes
    code units out, and takes none out of a text without ESC. *)
Theorem preview_keeps_last_lines (prev : option jsstring) (data : jsstring) :
  previewUpdate prev data `suffix_of` removeSgr (default [] prev ++ data) /\
  (countLF (previewUpdate prev data) <= 7)%nat /\
  ((countLF (removeSgr (default [] prev ++ data)) <= 7)%nat ->
     previewUpdate prev data = removeSgr (default [] prev ++ data)) /\
  removeSgr (default [] prev ++ data) `sublist_of` default [] prev ++ data /\
  (27%N ∉ default [] prev ++ data ->
     removeSgr (default [] prev ++ data) = default [] prev ++ data).
Proof.
  unfold previewUpdate. cbv zeta. set (cleaned := removeSgr (default [] prev ++ data)).
  split; [|split; [|split; [|split]]].
  - unfold lastLines.
    pose proof (joinLines_drop_suffix (length (splitLines cleaned) - 8)
                  (splitLines cleaned)) as Hsuffix.
    by rewrite joinLines_splitLines in Hsuffix.
  - rewrite countLF_joinLines.
    + unfold lastLines. rewrite length_drop. lia.
    + unfold lastLines. apply Forall_drop, splitLines_no_LF.
  - intros Hfew. unfold lastLines. rewrite splitLines_length.
    replace (S (countLF cleaned) - 8)%nat with O by lia.
    rewrite drop_0. apply joinLines_splitLines.
  - apply removeSgr_sublist.
  - apply removeSgr_no_esc.
Qed.

Lemma preview_keeps_last_lines_witness :
  previewUpdate (Some (js "a")) (js "b") = js "ab".
Proof.
  destruct (preview_keeps_last_lines (Some (js "a")) (js "b")) as (_ & _ & H & _).
  rewrite H; [reflexivity|]. vm_compute. lia.
Defined.

(** * Restart, the cap and the window *)

Lemma kill_nextHandle (id : string) (st : State) :
  nextHandle (kill id st).2 = nextHandle st.
Proof.
  unfold kill. destruct (map_get id (instances st)) as [i|]; [|reflexivity].
  unfold_primitives. by destruct (usePty i), (countObserver st).
Qed.

(** X23.  [restart] of an unknown id returns false and changes nothing.
    For a registered id it first kills the session's process and then
    spawns as [create] does, with the same id, the kind the session had,
    the new cwd and the shell and agent passed: the kill call comes before
    every spawn call. *)
Theorem restart_kills_then_spawns (w : World) (id newCwd : string)
    (shell : option string) (agent : option CodeAgentType) (st : State) :
  match map_get id (instances st) with
  | None => restart w id newCwd shell agent st = (false, st)
  | Some i =>
      let o := mkOptions id newCwd (type i) shell agent in
      backend (restart w id newCwd shell agent st).2 =
        backend st ++ [killCall i]
        ++ (if nativeTried st
            then [PtySpawn (mkSpawn (resolveExecutable w o).1 (resolveExecutable w o).2 newCwd)
                    (if ptySpawnThrows w then None else Some (nextHandle st))]
            else [])
        ++ (if nativeOk w st then []
            else [ChildSpawn
                    (mkSpawn (resolveExecutable w o).1
                       (pipedArgs (resolveExecutable w o).1 (resolveExecutable w o).2) newCwd)
                    (if childSpawnThrows w then None else Some (nextHandle st))])
  end.
Proof.
  destruct (restart_fields w id newCwd shell agent st)
    as [[-> ->] | (i & Hget & _ & _ & _ & _ & _ & _ & _ & _ & _ & Hb)]; [reflexivity|].
  rewrite Hget. cbv zeta in *. rewrite Hb, create_backend.
  destruct (kill_fields id st) as (_ & _ & _ & Km & Ka & _ & _ & _ & _ & Kb).
  unfold nativeOk, nativeTried. rewrite Km, Ka, Kb, Hget, kill_nextHandle.
  cbn [o_cwd]. by rewrite <- !app_assoc.
Qed.

(** ** The cap on a session's buffer *)

Lemma pushOutput_capped (data : jsstring) (b : OutputBuffer) : capped (pushOutput data b).
Proof.
  destruct (pushOutput_keeps_last data b) as [kept Hkept].
  destruct b as [chunks size]. rewrite pushOutput_unfold in *. unfold capped.
  destruct (size + jslength data >? 200000) eqn:Hgt.
  - destruct (trimLoop_spec (chunks ++ [data]) (size + jslength data))
      as (dropped & _ & _ & [Hle|Hlen] & _); [left; lia|].
    right. exists data. rewrite Hkept in Hlen |- *. rewrite length_app in Hlen.
    simpl in Hlen. destruct kept; [reflexivity | simpl in Hlen; lia].
  - left. rewrite Z.gtb_ltb in Hgt. apply Z.ltb_ge in Hgt. exact Hgt.
Qed.

Lemma run_buffers (P : OutputBuffer -> Prop) :
  P emptyBuffer ->
  (forall data b, P b -> P (pushOutput data b)) ->
  forall ops st,
    (forall id i, map_get id (instances st) = Some i -> P (bufferOf i)) ->
    forall id i, map_get id (instances (run ops st)) = Some i -> P (bufferOf i).
Proof.
  intros Hempty Hpush ops. induction ops as [|op ops IH]; intros st Hst; [exact Hst|].
  rewrite run_cons. apply IH. clear IH ops.
  assert (forall k v m,
            (forall id i, map_get id m = Some i -> P (bufferOf i)) -> P (bufferOf v) ->
            forall id i, map_get id (map_set k v m) = Some i -> P (bufferOf i)) as Hset.
  { intros k v m Hm Hv id i. destruct (decide (k = id)) as [->|Hne].
    - rewrite map_get_set_eq. by intros [= <-].
    - rewrite map_get_set_ne by done. apply Hm. }
  assert (forall k m,
            (forall id i, map_get id m = Some i -> P (bufferOf i)) ->
            forall id i, map_get id (map_delete k m) = Some i -> P (bufferOf i)) as Hdel.
  { intros k m Hm id i Hget. eapply Hm, map_get_delete_Some, Hget. }
  assert (forall b i, P b -> P (bufferOf (withBuffer b i))) as Hwith
    by (by intros [chunks size] i).
  destruct op; simpl.
  - destruct (create_fields w o st) as (_ & -> & _).
    destruct (create w o st).1; [|exact Hst]. by apply Hset.
  - unfold write. repeat case_match; exact Hst.
  - unfold resize. repeat case_match; exact Hst.
  - destruct (kill_fields id st) as (_ & -> & _). by apply Hdel.
  - destruct (restart_fields w id newCwd shell codeAgentType st)
      as [[_ ->] | (instance & Hget & _ & -> & _)]; [exact Hst|].
    case_match; [|by apply Hdel].
    apply Hset; [by apply Hdel|]. apply Hwith. exact (Hst _ _ Hget).
  - unfold clearOutputBuffer. destruct (map_get id (instances st)) as [i|] eqn:E; [|exact Hst].
    by apply Hset.
  - rewrite dispose_unfold.
    destruct (killAll_fields (map_keys (instances st)) (setDisposed true st)) as (-> & _).
    simpl. generalize (map_keys (instances st)). intros ids.
    revert Hst. generalize (instances st). induction ids as [|k ids IH]; intros m Hm; [exact Hm|].
    simpl. by apply IH, Hdel.
  - unfold onData. destruct (map_get id (instances st)) as [i|] eqn:E.
    + unfold safeSend. case_match; simpl.
      all: apply Hset; [exact Hst|]; apply Hwith, Hpush, (Hst _ _ E).
    + unfold safeSend. case_match; exact Hst.
  - unfold onExit, notifyTerminalCountChange, safeSend. repeat case_match; simpl.
    all: by apply Hdel.
  - unfold onChildExit, onExit, notifyTerminalCountChange, safeSend.
    repeat case_match; simpl. all: by apply Hdel.
  - unfold onChildError, safeSend. case_match; exact Hst.
  - exact Hst.
Qed.

(** X24.  The cap holds in every state the manager reaches from its
    initial one: a session's buffer holds at most 200000 code units, by
    its tracked size and in fact, unless it is one single chunk. *)
Theorem buffer_stays_capped (ptyLoads spawnIsFunction observer : bool)
    (ops : list Op) (id : string) (i : PtyInstance) :
  map_get id (instances (run ops (initialState ptyLoads spawnIsFunction observer))) = Some i ->
  (outputBufferSize i <= 200000 /\ jslength (join (outputBuffer i)) <= 200000) \/
  exists chunk, outputBuffer i = [chunk].
Proof.
  intros Hget.
  pose proof (run_buffers (fun b => capped b /\ consistent b)) as Hrun.
  destruct (Hrun) with (ops := ops)
    (st := initialState ptyLoads spawnIsFunction observer) (id := id) (i := i)
    as [[Hle|Hone] Hcons]; try done.
  - split; [by left | reflexivity].
  - intros data b [_ Hc]. split; [apply pushOutput_capped | by apply pushOutput_consistent].
  - left. unfold consistent in Hcons. simpl in *.
    split; [exact Hle|]. by rewrite <- totalLength_join, <- Hcons.
  - by right.
Qed.

Lemma buffer_stays_capped_witness :
  (outputBufferSize (mkInstance 0 terminal "/tmp" true [js "hi"] 2) <= 200000 /\
   jslength (join (outputBuffer (mkInstance 0 terminal "/tmp" true [js "hi"] 2))) <= 200000) \/
  exists chunk, outputBuffer (mkInstance 0 terminal "/tmp" true [js "hi"] 2) = [chunk].
Proof.
  apply (buffer_stays_capped true true true
           [OpCreate (mkWorld "happy" "claude" "/bin/sh" false false)
              (mkOptions "s1" "/tmp" terminal None None);
            EvData "s1" (js "hi")]
           "s1" (mkInstance 0 terminal "/tmp" true [js "hi"] 2)).
  reflexivity.
Defined.

(** ** A destroyed window *)

Lemma step_window_destroyed (op : Op) (st : State) :
  windowDestroyed st = true ->
  windowDestroyed (step op st) = true /\ sent (step op st) = sent st.
Proof.
  intros Hw. destruct op; simpl.
  - destruct (create_fields w o st) as (_ & _ & _ & _ & _ & _ & -> & -> & _).
    unfold live. rewrite Hw, !andb_false_r. by rewrite app_nil_r.
  - destruct st; simpl in Hw; subst; simple_op; simplify_eq/=; done.
  - destruct st; simpl in Hw; subst; simple_op; simplify_eq/=; done.
  - by destruct (kill_fields id st) as (_ & _ & _ & _ & _ & _ & -> & -> & _).
  - destruct (restart_fields w id newCwd shell codeAgentType st)
      as [[_ ->] | (instance & _ & _ & _ & _ & _ & _ & _ & -> & -> & _)]; [done|].
    match goal with |- context [create ?w ?o ?s] =>
      destruct (create_fields w o s) as (_ & _ & _ & _ & _ & _ & -> & -> & _) end.
    destruct (kill_fields id st) as (_ & _ & _ & _ & _ & _ & Kw & -> & _).
    unfold live. rewrite Kw, Hw, !andb_false_r. by rewrite app_nil_r.
  - destruct st; simpl in Hw; subst; simple_op; simplify_eq/=; done.
  - rewrite dispose_unfold.
    by destruct (killAll_fields (map_keys (instances st)) (setDisposed true st))
      as (_ & _ & _ & _ & _ & -> & -> & _).
  - destruct st; simpl in Hw; subst; simple_op; simplify_eq/=;
      destruct disposed0; simplify_eq/=; done.
  - destruct st; simpl in Hw; subst; simple_op; simplify_eq/=;
      destruct disposed0; simplify_eq/=; done.
  - destruct st; simpl in Hw; subst; simple_op; simplify_eq/=;
      destruct disposed0; simplify_eq/=; done.
  - destruct st; simpl in Hw; subst; simple_op; simplify_eq/=;
      destruct disposed0; simplify_eq/=; done.
  - done.
Qed.

(** X25.  Once the window is destroyed it stays so and nothing is sent
    to it any more, whatever is called and whatever the backends report,
    also when [dispose] was never called. *)
Theorem destroyed_window_gets_nothing (ops : list Op) (st : State)
    (Hgone : windowDestroyed st = true) :
  windowDestroyed (run ops st) = true /\ sent (run ops st) = sent st.
Proof.
  revert st Hgone. induction ops as [|op ops IH]; intros st Hgone; [done|].
  rewrite run_cons. destruct (step_window_destroyed op st Hgone) as [Hw Hs].
  destruct (IH _ Hw) as [? ?]. split; congruence.
Qed.

Lemma destroyed_window_gets_nothing_witness :
  sent (run [EvWindowDestroyed; EvData "s1" (js "x"); EvPtyExit "s1" 0]
          (initialState true true true)) = [].
Proof.
  apply (destroyed_window_gets_nothing [EvData "s1" (js "x"); EvPtyExit "s1" 0]
           (step EvWindowDestroyed (initialState true true true))).
  reflexivity.
Defined.
